(** * NorMITs-Demand, EDGE growth: station disaggregation and growth-factor infill

    A shallow embedding of
      - normits_demand/models/forecasting/EDGE_growth/utils.py
      - normits_demand/models/forecasting/EDGE_growth/growth_matrices.py
    and the properties of their functions.

    Conventions of the embedding.
      - A pandas/numpy float64 is a [float]: a rational, one of the two
        infinities, or NaN.  Rounding and the sign of zero are not modelled;
        everything else of the arithmetic used by the code (NaN absorbing,
        [0/0 = NaN], [x/0 = inf], [inf * 0 = NaN], NaN skipped by pandas'
        [sum] and [mean]) is written out.
      - A missing value of a DataFrame is NaN: [NaN] in a float column,
        [None] in an identifier or code column.
      - A DataFrame is the list of its rows, a row being a record of the
        columns the code reads.
      - A 2-D numpy array is its shape together with its cells by 0-based
        position, which makes numpy's broadcasting directly expressible.
      - A Python dict is a [gmap]; [d[k]] on an absent key raises KeyError. *)

From Stdlib Require Import QArith Qcanon.
From stdpp Require Import gmap strings fin_maps sorting numbers list.

Open Scope Qc_scope.

(** ** Python exceptions *)

Inductive exn :=
  | KeyError (key : string)
  | ValueError (msg : string).

Inductive result (A : Type) :=
  | Ok (a : A)
  | Raise (e : exn).
Arguments Ok {A} a.
Arguments Raise {A} e.

Definition result_bind {A B} (f : A → result B) (m : result A) : result B :=
  match m with
  | Ok a => f a
  | Raise e => Raise e
  end.

#[export] Instance result_mbind : MBind result := @result_bind.
#[export] Instance result_mret : MRet result := @Ok.

Definition raises {A} (m : result A) : Prop := ∃ e, m = Raise e.

(** [d[k]] *)
Definition getitem {V} (d : gmap string V) (k : string) : result V :=
  match d !! k with
  | Some v => Ok v
  | None => Raise (KeyError k)
  end.

(** ** float64 values *)

Inductive float :=
  | NaN
  | PInf
  | NInf
  | Fin (q : Qc).

#[export] Instance float_eq_dec : EqDecision float.
Proof. solve_decision. Defined.

Definition Qc_of_nat (n : nat) : Qc := Q2Qc (inject_Z (Z.of_nat n)).
Definition Qc_of_Z (z : Z) : Qc := Q2Qc (inject_Z z).

(** the float of an integer literal, and of a fraction [a / b] *)
Definition num (z : Z) : float := Fin (Qc_of_Z z).
Definition frac (a : Z) (b : positive) : float := Fin (Q2Qc (Qmake a b)).

Definition inf (positive : bool) : float := if positive then PInf else NInf.

(** [pd.isna] *)
Definition isna (x : float) : bool :=
  match x with NaN => true | _ => false end.

Definition notna (x : float) : Prop := isna x = false.

Definition finite (x : float) : Prop :=
  match x with Fin _ => True | _ => False end.

(** [x == 0] *)
Definition eq_zero (x : float) : bool :=
  match x with Fin q => bool_decide (q = 0) | _ => false end.

(** [x > 0] *)
Definition gt_zero (x : float) : bool :=
  match x with
  | Fin q => bool_decide (0 < q)
  | PInf => true
  | _ => false
  end.

Definition fadd (x y : float) : float :=
  match x, y with
  | NaN, _ | _, NaN => NaN
  | PInf, NInf | NInf, PInf => NaN
  | PInf, _ | _, PInf => PInf
  | NInf, _ | _, NInf => NInf
  | Fin a, Fin b => Fin (a + b)
  end.

Definition inf_times (positive : bool) (q : Qc) : float :=
  if bool_decide (q = 0) then NaN
  else if bool_decide (0 < q) then inf positive
  else inf (negb positive).

Definition fmul (x y : float) : float :=
  match x, y with
  | NaN, _ | _, NaN => NaN
  | Fin a, Fin b => Fin (a * b)
  | PInf, Fin b | Fin b, PInf => inf_times true b
  | NInf, Fin b | Fin b, NInf => inf_times false b
  | PInf, PInf | NInf, NInf => PInf
  | PInf, NInf | NInf, PInf => NInf
  end.

Definition fdiv (x y : float) : float :=
  match x, y with
  | NaN, _ | _, NaN => NaN
  | Fin a, Fin b =>
      if bool_decide (b = 0) then
        if bool_decide (a = 0) then NaN
        else inf (bool_decide (0 < a))
      else Fin (a / b)
  | Fin _, (PInf | NInf) => Fin 0
  | PInf, Fin b => inf (negb (bool_decide (b < 0)))
  | NInf, Fin b => inf (bool_decide (b < 0))
  | (PInf | NInf), (PInf | NInf) => NaN
  end.

(** [fillna(0)] on one float cell, and on one identifier cell *)
Definition fillna0 (x : float) : float := if isna x then Fin 0 else x.

Definition fillna0_id (k : option Z) : option Z := Some (default 0%Z k).

(** [np.sum]: NaN propagates *)
Definition np_sum_list (l : list float) : float := foldr fadd (Fin 0) l.

(** pandas [sum()] of a group: NaN is skipped, the empty sum is 0 *)
Definition nansum (l : list float) : float :=
  np_sum_list (filter notna l).

(** pandas [mean()] of a group: NaN is skipped, the empty mean is NaN *)
Definition nanmean (l : list float) : float :=
  let vs := filter notna l in
  fdiv (np_sum_list vs) (Fin (Qc_of_nat (length vs))).

(** ** 2-D numpy arrays *)

Record ndarray (A : Type) := NDArray {
  nrows : nat;
  ncols : nat;
  cell : nat → nat → A
}.
Arguments NDArray {A} nrows ncols cell.
Arguments nrows {A} _.
Arguments ncols {A} _.
Arguments cell {A} _ _ _.

Definition shape {A} (a : ndarray A) : nat * nat := (nrows a, ncols a).


Definition tolist {A} (a : ndarray A) : list (list A) :=
  (λ i, cell a i <$> seq 0 (ncols a)) <$> seq 0 (nrows a).


(** the 0-d array of a Python scalar takes part in broadcasting like a
    1-by-1 array *)
Definition np_scalar {A} (x : A) : ndarray A := NDArray 1 1 (λ _ _, x).

(** numpy broadcasting of one axis *)
Definition broadcast_dim (m n : nat) : result nat :=
  if decide (m = n) then Ok m
  else if decide (m = 1%nat) then Ok n
  else if decide (n = 1%nat) then Ok m
  else Raise (ValueError "operands could not be broadcast together").

Definition bidx (n i : nat) : nat := if decide (n = 1%nat) then 0%nat else i.

Definition bcell {A} (a : ndarray A) (i j : nat) : A :=
  cell a (bidx (nrows a) i) (bidx (ncols a) j).

(** [a == 0] *)
Definition np_eq_zero (a : ndarray float) : ndarray bool :=
  NDArray (nrows a) (ncols a) (λ i j, eq_zero (cell a i j)).

(** [np.where(c, x, y)] *)
Definition np_where {A} (c : ndarray bool) (x y : ndarray A)
    : result (ndarray A) :=
  r1 ← broadcast_dim (nrows c) (nrows x);
  r ← broadcast_dim r1 (nrows y);
  c1 ← broadcast_dim (ncols c) (ncols x);
  k ← broadcast_dim c1 (ncols y);
  Ok (NDArray r k (λ i j, if bcell c i j then bcell x i j else bcell y i j)).

(** [np.argwhere(c)]: the positions of the true cells, row-major *)
Definition np_argwhere (c : ndarray bool) : list (nat * nat) :=
  i ← seq 0 (nrows c);
  j ← filter (λ j, cell c i j = true) (seq 0 (ncols c));
  [(i, j)].

(** ** Long matrices

    A long matrix DataFrame has three columns: two identifier columns
    ([from_model_zone_id], [to_model_zone_id] or [from_stn_zone_id],
    [to_stn_zone_id]) and a value column.  Which of the two namings a table
    carries is fixed by its caller; the records below are positional. *)

Record long_row := LongRow {
  row_id : option Z;
  col_id : option Z;
  val : float
}.

#[export] Instance long_row_eq_dec : EqDecision long_row.
Proof. solve_decision. Defined.

Definition ids (r : long_row) : option Z * option Z := (row_id r, col_id r).

(** [Series.unique()]: the distinct values, in order of first appearance *)
Fixpoint unique `{EqDecision A} (l : list A) : list A :=
  match l with
  | [] => []
  | x :: l => x :: filter (λ y, y ≠ x) (unique l)
  end.

(** lexicographic order of identifier pairs, the order in which pandas
    sorts the groups of a two-column [groupby] *)
Definition pair_le (a b : Z * Z) : Prop :=
  (a.1 < b.1)%Z ∨ (a.1 = b.1 ∧ (a.2 ≤ b.2)%Z).

#[export] Instance pair_le_dec : RelDecision pair_le.
Proof. intros a b. unfold pair_le. apply _. Defined.

(** the rows of a long matrix whose two identifiers are present, keyed by
    them: [groupby] (with its default [dropna=True]) ignores the others *)
Definition keyed (mx : list long_row) : list ((Z * Z) * float) :=
  omap (λ r, i ← row_id r; j ← col_id r; Some ((i, j), val r)) mx.

Definition group_values (k : Z * Z) (kv : list ((Z * Z) * float))
    : list float :=
  snd <$> filter (λ e, e.1 = k) kv.

Definition group_keys (kv : list ((Z * Z) * float)) : list (Z * Z) :=
  merge_sort pair_le (unique (fst <$> kv)).

(** [mx.groupby([row, col])[value].agg(f).reset_index()] *)
Definition groupby_agg (f : list float → float) (mx : list long_row)
    : list long_row :=
  let kv := keyed mx in
  (λ k, LongRow (Some k.1) (Some k.2) (f (group_values k kv)))
    <$> group_keys kv.

Definition groupby_sum : list long_row → list long_row := groupby_agg nansum.

(** *** [long_mx_2_wide_mx]

    [mx_df.pivot_table(index=row, columns=col, values=value).values] with
    [pivot_table]'s defaults [aggfunc="mean"], [fill_value=None],
    [dropna=True]: the rows are grouped by the two identifiers and each
    group is replaced by its mean; groups whose mean is NaN are dropped; the
    index is the sorted distinct row identifiers, the columns the sorted
    distinct column identifiers; a position with no group holds NaN.
    The callers always pass the three columns in the default order. *)
Definition pivot_cell (groups : list long_row) (i j : Z) : float :=
  default NaN
    (val <$> head (filter (λ g, row_id g = Some i ∧ col_id g = Some j) groups)).

Definition pivot_groups (mx_df : list long_row) : list long_row :=
  filter (λ g, notna (val g)) (groupby_agg nanmean mx_df).

Definition pivot_index (groups : list long_row) : list Z :=
  merge_sort Z.le (unique (omap row_id groups)).

Definition pivot_columns (groups : list long_row) : list Z :=
  merge_sort Z.le (unique (omap col_id groups)).

Definition long_mx_2_wide_mx (mx_df : list long_row) : ndarray float :=
  let groups := pivot_groups mx_df in
  let index := pivot_index groups in
  let columns := pivot_columns groups in
  NDArray (length index) (length columns)
    (λ a b,
       match index !! a, columns !! b with
       | Some i, Some j => pivot_cell groups i j
       | _, _ => NaN
       end).

(** *** [wide_mx_2_long_mx]: position [(a, b)] becomes identifiers
    [(a + 1, b + 1)]; [melt] emits the cells column by column *)
Definition wide_mx_2_long_mx (mx_np : ndarray float) : list long_row :=
  b ← seq 0 (ncols mx_np);
  (λ a, LongRow (Some (Z.of_nat a + 1)%Z) (Some (Z.of_nat b + 1)%Z)
          (cell mx_np a b)) <$> seq 0 (nrows mx_np).

(** *** [transpose_matrix]: the two identifier columns swap their names *)
Definition transpose_matrix (mx_df : list long_row) : list long_row :=
  (λ r, LongRow (col_id r) (row_id r) (val r)) <$> mx_df.

(** *** [expand_matrix] *)

(** [range(a, b)] *)
Definition py_range (a b : Z) : list Z := seqZ a (b - a).

(** [itertools.product(range(1, zones + 1), range(1, zones + 1))] *)
Definition od_grid (zones : Z) : list (Z * Z) :=
  i ← py_range 1 (zones + 1); (λ j, (i, j)) <$> py_range 1 (zones + 1).

Definition on_pair (p : Z * Z) (r : long_row) : Prop :=
  row_id r = Some p.1 ∧ col_id r = Some p.2.

#[export] Instance on_pair_dec p r : Decision (on_pair p r).
Proof. unfold on_pair. apply _. Defined.

(** [grid.merge(mx_df, how="outer", on=od_cols)], [grid] holding the two
    identifier columns only: every grid pair with the rows of [mx_df] that
    carry it, or with a missing value when there is none, and then the rows
    of [mx_df] that carry no grid pair.  (pandas returns the rows of an outer
    merge sorted by key; the order of the rows of a long matrix is immaterial
    to [groupby] and [pivot_table], and it is not modelled here.) *)
Definition merge_outer (grid : list (Z * Z)) (mx_df : list long_row)
    : list long_row :=
  (p ← grid;
   match filter (on_pair p) mx_df with
   | [] => [LongRow (Some p.1) (Some p.2) NaN]
   | found => found
   end)
  ++ filter (λ r, Forall (λ p, ¬ on_pair p r) grid) mx_df.

(** [DataFrame.fillna(0)] *)
Definition fillna_row (r : long_row) : long_row :=
  LongRow (fillna0_id (row_id r)) (fillna0_id (col_id r)) (fillna0 (val r)).

Definition expand_matrix (mx_df : list long_row) (zones : Z)
    : list long_row :=
  fillna_row <$> merge_outer (od_grid zones) mx_df.

(** the default of [expand_matrix]'s parameter [zones] *)
Definition default_zones : Z := 1300.

(** ** Station lookup and growth-factor records *)

(** a row of the station lookup; its further columns are not read by the
    code *)
Record station := Station {
  STATIONCODE : option string;
  stn_zone_id : option Z
}.

(** a row of the EDGE growth-factor table.  The purpose and ticket-type
    columns, which become dict keys, are taken to hold no missing value. *)
Record factor_row := FactorRow {
  ZoneCodeFrom : option string;
  ZoneCodeTo : option string;
  purpose : string;
  TicketType : string;
  Demand_rate : float
}.

(** a row of the table returned by [merge_to_stations]: the columns of the
    input row (with [Demand_rate] renamed to [Demand]) and the two resolved
    identifiers *)
Record station_factor_row := StationFactorRow {
  factors : factor_row;
  from_stn_zone_id : option Z;
  to_stn_zone_id : option Z
}.

Definition Demand (r : station_factor_row) : float := Demand_rate (factors r).

(** [left.merge(stations_lookup, how="right", left_on=[key],
    right_on=["STATIONCODE"])]: the lookup rows in their order, each with the
    left rows whose key equals its code, or with a row of missing values
    ([None]) when there is none.  pandas matches a missing key with a
    missing key. *)
Definition merge_right {L} (key : L → option string) (left : list L)
    (stations_lookup : list station) : list (option L * station) :=
  s ← stations_lookup;
  match filter (λ r, key r = STATIONCODE s) left with
  | [] => [(None, s)]
  | found => (λ r, (Some r, s)) <$> found
  end.

Definition factor_row_notna (r : factor_row) : Prop :=
  is_Some (ZoneCodeFrom r) ∧ is_Some (ZoneCodeTo r) ∧ notna (Demand_rate r).

Definition station_notna (s : station) : Prop :=
  is_Some (STATIONCODE s) ∧ is_Some (stn_zone_id s).

#[export] Instance factor_row_notna_dec r : Decision (factor_row_notna r).
Proof. unfold factor_row_notna, notna. apply _. Defined.

#[export] Instance station_notna_dec s : Decision (station_notna s).
Proof. unfold station_notna. apply _. Defined.

(** [dropna(axis=0)] on the twice-merged table, followed by the renaming of
    the two [stn_zone_id] columns: a row survives when none of its cells is
    missing *)
Definition dropna_row
    (row : option (option factor_row * station) * station)
    : option station_factor_row :=
  match row with
  | (Some (Some r, s_from), s_to) =>
      if decide (factor_row_notna r ∧ station_notna s_from
                 ∧ station_notna s_to)
      then Some (StationFactorRow r (stn_zone_id s_from) (stn_zone_id s_to))
      else None
  | _ => None
  end.

(** [merge_to_stations(stations_lookup, df, "ZoneCodeFrom", "ZoneCodeTo")] *)
Definition merge_to_stations (stations_lookup : list station)
    (df : list factor_row) : list station_factor_row :=
  let factors_df := merge_right ZoneCodeFrom df stations_lookup in
  let factors_df :=
    merge_right (λ row, row.1 ≫= ZoneCodeTo) factors_df stations_lookup in
  omap dropna_row factors_df.

(** [filter_stations] *)
Definition filter_stations (stations_lookup : list station)
    (df : list factor_row) : list factor_row :=
  let used_stations := STATIONCODE <$> stations_lookup in
  filter (λ r, ZoneCodeFrom r ∈ used_stations ∧ ZoneCodeTo r ∈ used_stations)
    df.

(** ** Growth matrices *)

Abbreviation growth_dict := (gmap string (gmap string (ndarray float))).
Abbreviation missing_dict := (gmap string (gmap string (list (nat * nat)))).

(** [{i: {} for i in purposes}] *)
Definition empty_dicts {V} (purposes : list string)
    : gmap string (gmap string V) :=
  list_to_map ((λ i, (i, ∅)) <$> purposes).

(** [d[k1][k2] = v], for [k1] a key of [d] *)
Definition setitem2 {V} (d : gmap string (gmap string V)) (k1 k2 : string)
    (v : V) : gmap string (gmap string V) :=
  alter (insert k2 v) k1 d.

(** the long matrix of one purpose and ticket type *)
Definition segment_mx (factors_df : list station_factor_row)
    (p ticket_type : string) : list long_row :=
  (λ r, LongRow (from_stn_zone_id r) (to_stn_zone_id r) (Demand r))
    <$> filter (λ r, purpose (factors r) = p
                     ∧ TicketType (factors r) = ticket_type) factors_df.

(** [prepare_growth_matrices]; of [demand_segments_df] only the column
    [Purpose] is read *)
Definition prepare_growth_matrices (demand_segments_Purpose : list string)
    (factors_df : list factor_row) (stations_lookup : list station)
    : growth_dict :=
  let purposes := unique demand_segments_Purpose in
  let ticket_types := unique (TicketType <$> factors_df) in
  let factors_df := merge_to_stations stations_lookup factors_df in
  let growth_matrices := empty_dicts purposes in
  foldl
    (λ growth_matrices p,
       foldl
         (λ growth_matrices ticket_type,
            let mx_df := segment_mx factors_df p ticket_type in
            let mx_df :=
              expand_matrix mx_df (Z.of_nat (length stations_lookup)) in
            setitem2 growth_matrices p ticket_type (long_mx_2_wide_mx mx_df))
         growth_matrices ticket_types)
    growth_matrices purposes.

(** one ticket type of [fill_missing_factors]: three [np.where] in a row *)
Definition fill_from (own first second : ndarray float)
    : result (ndarray float) :=
  filled ← np_where (np_eq_zero own) first own;
  filled ← np_where (np_eq_zero filled) second filled;
  np_where (np_eq_zero filled) (np_scalar (num 1)) filled.

(** the body of the loop of [fill_missing_factors] *)
Definition fill_purpose (growth_matrices : growth_dict) (p : string)
    (acc : growth_dict * missing_dict) : result (growth_dict * missing_dict) :=
  let '(filled_growth_matrices, missing_factors) := acc in
  entry ← getitem growth_matrices p;
  f_mx ← getitem entry "F";
  r_mx ← getitem entry "R";
  s_mx ← getitem entry "S";
  let missing_factors :=
    setitem2 missing_factors p "F" (np_argwhere (np_eq_zero f_mx)) in
  let missing_factors :=
    setitem2 missing_factors p "R" (np_argwhere (np_eq_zero r_mx)) in
  let missing_factors :=
    setitem2 missing_factors p "S" (np_argwhere (np_eq_zero s_mx)) in
  filled_f_mx ← fill_from f_mx r_mx s_mx;
  filled_r_mx ← fill_from r_mx f_mx s_mx;
  filled_s_mx ← fill_from s_mx r_mx f_mx;
  let filled_growth_matrices :=
    setitem2 filled_growth_matrices p "F" filled_f_mx in
  let filled_growth_matrices :=
    setitem2 filled_growth_matrices p "R" filled_r_mx in
  let filled_growth_matrices :=
    setitem2 filled_growth_matrices p "S" filled_s_mx in
  Ok (filled_growth_matrices, missing_factors).

Fixpoint fill_loop (growth_matrices : growth_dict) (purposes : list string)
    (acc : growth_dict * missing_dict) : result (growth_dict * missing_dict) :=
  match purposes with
  | [] => Ok acc
  | p :: purposes =>
      acc ← fill_purpose growth_matrices p acc;
      fill_loop growth_matrices purposes acc
  end.

(** [fill_missing_factors] *)
Definition fill_missing_factors (purposes : list string)
    (growth_matrices : growth_dict) : result (growth_dict * missing_dict) :=
  fill_loop growth_matrices purposes
    (empty_dicts purposes, empty_dicts purposes).

(** the fallback hierarchy of one cell, as the docstring of
    [fill_missing_factors] words it: the own factor, else the first
    alternative, else the second, else 1 *)
Definition fallback (own first second : float) : float :=
  if eq_zero own then
    if eq_zero first then
      if eq_zero second then num 1 else second
    else first
  else own.

(** ** Zonal demand to station demand *)

(** a row of the iRSj split-probability table *)
Record irsj_row := IrsjRow {
  irsj_from_model_zone_id : option Z;
  irsj_to_model_zone_id : option Z;
  irsj_userclass : option Z;
  irsj_from_stn_zone_id : option Z;
  irsj_to_stn_zone_id : option Z;
  proportion : float
}.

(** a row of the working table [mx_df] of [zonal_from_to_stations_demand];
    [proportion] is renamed to [stn_from_zone] *)
Record zonal_row := ZonalRow {
  from_model_zone_id : option Z;
  to_model_zone_id : option Z;
  zonal_Demand : float;
  userclass : Z;
  zonal_from_stn_zone_id : option Z;
  zonal_to_stn_zone_id : option Z;
  stn_from_zone : float
}.

(** a row of the returned lookup [zonal_from_to_stns] *)
Record lookup_row := LookupRow {
  lookup_from_model_zone_id : option Z;
  lookup_from_stn_zone_id : option Z;
  lookup_to_stn_zone_id : option Z;
  lookup_to_model_zone_id : option Z;
  lookup_stn_from_zone : float;
  lookup_stn_to_zone : float
}.

Definition irsj_matches (uc : Z) (d : long_row) (p : irsj_row) : Prop :=
  irsj_from_model_zone_id p = row_id d
  ∧ irsj_to_model_zone_id p = col_id d
  ∧ irsj_userclass p = Some uc.

#[export] Instance irsj_matches_dec uc d p : Decision (irsj_matches uc d p).
Proof. unfold irsj_matches. apply _. Defined.

(** [demand_mx.merge(irsj_props, how="left", on=["from_model_zone_id",
    "to_model_zone_id", "userclass"])], [demand_mx] carrying the constant
    column [userclass] *)
Definition merge_irsj (demand_mx : list long_row) (uc : Z)
    (irsj_props : list irsj_row) : list zonal_row :=
  d ← demand_mx;
  match filter (irsj_matches uc d) irsj_props with
  | [] => [ZonalRow (row_id d) (col_id d) (val d) uc None None NaN]
  | found =>
      (λ p, ZonalRow (row_id d) (col_id d) (val d) uc
              (irsj_from_stn_zone_id p) (irsj_to_stn_zone_id p)
              (proportion p)) <$> found
  end.

(** the demand table after expansion, tagging and, for to-home demand,
    transposition, merged to the split probabilities *)
Definition zonal_merged (demand_mx : list long_row)
    (irsj_props : list irsj_row) (uc : Z) (to_home : bool)
    : list zonal_row :=
  let demand_mx := expand_matrix demand_mx default_zones in
  let demand_mx :=
    if to_home then transpose_matrix demand_mx else demand_mx in
  merge_irsj demand_mx uc irsj_props.

(** the local [missing_props]: zone to zone movements with demand but no
    proportion *)
Definition missing_props (mx_df : list zonal_row)
    : list (option Z * option Z) :=
  (λ r, (from_model_zone_id r, to_model_zone_id r))
    <$> filter (λ r, isna (stn_from_zone r) = true
                     ∧ gt_zero (zonal_Demand r) = true) mx_df.

(** [mx_df["Demand"] = mx_df["Demand"] * mx_df["stn_from_zone"]] *)
Definition scale_demand (r : zonal_row) : zonal_row :=
  ZonalRow (from_model_zone_id r) (to_model_zone_id r)
    (fmul (zonal_Demand r) (stn_from_zone r)) (userclass r)
    (zonal_from_stn_zone_id r) (zonal_to_stn_zone_id r) (stn_from_zone r).

(** the columns [from_stn_zone_id], [to_stn_zone_id], [Demand] of [mx_df] *)
Definition stn_long (r : zonal_row) : long_row :=
  LongRow (zonal_from_stn_zone_id r) (zonal_to_stn_zone_id r)
    (zonal_Demand r).

(** [mx_df.merge(stn2stn_mx, how="left", on=["from_stn_zone_id",
    "to_stn_zone_id"])]: every row with its [stn2stn_total_demand] *)
Definition merge_totals (mx_df : list zonal_row) (stn2stn_mx : list long_row)
    : list (zonal_row * float) :=
  r ← mx_df;
  match filter (λ g, row_id g = zonal_from_stn_zone_id r
                     ∧ col_id g = zonal_to_stn_zone_id r) stn2stn_mx with
  | [] => [(r, NaN)]
  | found => (λ g, (r, val g)) <$> found
  end.

(** a row of [zonal_from_to_stns], with
    [stn_to_zone = Demand / stn2stn_total_demand], after [fillna(0)] *)
Definition lookup_of (rt : zonal_row * float) : lookup_row :=
  let '(r, stn2stn_total_demand) := rt in
  LookupRow (fillna0_id (from_model_zone_id r))
    (fillna0_id (zonal_from_stn_zone_id r))
    (fillna0_id (zonal_to_stn_zone_id r))
    (fillna0_id (to_model_zone_id r))
    (fillna0 (stn_from_zone r))
    (fillna0 (fdiv (zonal_Demand r) stn2stn_total_demand)).

(** [(mx_df["from_stn_zone_id"] != 0) & (mx_df["to_stn_zone_id"] != 0)] *)
Definition nonzero_ids (r : long_row) : Prop :=
  row_id r ≠ Some 0%Z ∧ col_id r ≠ Some 0%Z.

#[export] Instance nonzero_ids_dec r : Decision (nonzero_ids r).
Proof. unfold nonzero_ids. apply _. Defined.

(** the station to station long matrix that is pivoted at the end *)
Definition stn_matrix_long (mx_df : list (zonal_row * float))
    (stations_count : Z) : list long_row :=
  let mx_df := (λ rt, stn_long rt.1) <$> mx_df in
  let mx_df := expand_matrix mx_df stations_count in
  let mx_df := groupby_sum mx_df in
  let mx_df := filter nonzero_ids mx_df in
  fillna_row <$> mx_df.

(** [zonal_from_to_stations_demand] *)
Definition zonal_from_to_stations_demand (demand_mx : list long_row)
    (irsj_props : list irsj_row) (stations_count : Z) (uc : Z)
    (to_home : bool) : ndarray float * list lookup_row :=
  let mx_df := zonal_merged demand_mx irsj_props uc to_home in
  let _missing_props := missing_props mx_df in
  let mx_df := scale_demand <$> mx_df in
  let stn2stn_mx := groupby_sum (stn_long <$> mx_df) in
  let mx_df := merge_totals mx_df stn2stn_mx in
  let zonal_from_to_stns := lookup_of <$> mx_df in
  let np_mx := long_mx_2_wide_mx (stn_matrix_long mx_df stations_count) in
  (np_mx, zonal_from_to_stns).

(** ** Auxiliary notions used in the statements *)

(** [d[k1][k2]] as an option *)
Definition lookup2 {V} (d : gmap string (gmap string V)) (k1 k2 : string)
    : option V :=
  d !! k1 ≫= (.!! k2).

(** the entry of purpose [p] holds the three ticket types, all of one
    shape *)
Definition has_FRS (growth_matrices : growth_dict) (p : string)
    (f r s : ndarray float) : Prop :=
  lookup2 growth_matrices p "F" = Some f
  ∧ lookup2 growth_matrices p "R" = Some r
  ∧ lookup2 growth_matrices p "S" = Some s.

Definition in_shape {A} (a : ndarray A) (i j : nat) : Prop :=
  (i < nrows a)%nat ∧ (j < ncols a)%nat.

(** the filled entry of purpose [p] holds, per ticket type, what
    [fill_from] returns on the three original matrices [f], [r], [s] *)
Definition filled_as (filled : growth_dict) (p : string)
    (f r s : ndarray float) : Prop :=
  ∃ ff fr fs, has_FRS filled p ff fr fs
    ∧ fill_from f r s = Ok ff ∧ fill_from r f s = Ok fr
    ∧ fill_from s r f = Ok fs.

(** every purpose of the list has its three matrices, of one shape *)
Definition complete_for (purposes : list string)
    (growth_matrices : growth_dict) : Prop :=
  ∀ p, p ∈ purposes →
    ∃ f r s, has_FRS growth_matrices p f r s
      ∧ shape r = shape f ∧ shape s = shape f.

(** a one-purpose growth-matrix dict with 1-by-1 matrices, on which the
    statements with hypotheses are exercised *)
Definition example_growth_matrices : growth_dict :=
  {[ "Business" :=
       <["F" := np_scalar (num 0)]>
         (<["R" := np_scalar (num 5)]>
            {[ "S" := np_scalar (num 0) ]}) ]}.

(** the row that [fillna(0)] makes of a grid pair without a match *)
Definition zero_row (p : Z * Z) : long_row :=
  LongRow (Some p.1) (Some p.2) (Fin 0).

Definition pair_ids (p : Z * Z) : option Z * option Z := (Some p.1, Some p.2).

#[export] Instance pair_ids_inj : Inj (=) (=) pair_ids.
Proof. by intros [??] [??] [= -> ->]. Qed.

(** the grid pairs that no row of the table carries *)
Definition unmatched (grid : list (Z * Z)) (mx_df : list long_row)
    : list (Z * Z) :=
  filter (λ p, Forall (λ r, ¬ on_pair p r) mx_df) grid.

(** the identifier pairs of a table are exactly the cross product of
    [1..zones] with itself, one row per pair *)
Definition exactly_full_grid (zones : Z) (out : list long_row) : Prop :=
  ids <$> out ≡ₚ pair_ids <$> od_grid zones.

(** every row of the table carries a pair of the grid *)
Definition within_grid (zones : Z) (mx_df : list long_row) : Prop :=
  ∀ r, r ∈ mx_df → ∃ p, p ∈ od_grid zones ∧ on_pair p r.

(** the values that a long matrix holds for one identifier pair *)
Definition values_at (mx_df : list long_row) (i j : Z) : list float :=
  group_values (i, j) (keyed mx_df).

(** a long matrix with two rows for the pair (1, 1) *)
Definition duplicated_pair : list long_row :=
  [LongRow (Some 1%Z) (Some 1%Z) (num 2);
   LongRow (Some 1%Z) (Some 1%Z) (num 4)].



(** what one input row contributes to [merge_to_stations] for one pair of
    lookup rows *)
Definition joined (s_from s_to : station) (r : factor_row)
    : list station_factor_row :=
  if decide (ZoneCodeFrom r = STATIONCODE s_from
             ∧ ZoneCodeTo r = STATIONCODE s_to
             ∧ factor_row_notna r ∧ station_notna s_from
             ∧ station_notna s_to)
  then [StationFactorRow r (stn_zone_id s_from) (stn_zone_id s_to)]
  else [].

(** a two-station lookup and a growth-factor table on which the statements
    with hypotheses are exercised *)
Definition example_stations : list station :=
  [Station (Some "AAA") (Some 1%Z); Station (Some "BBB") (Some 2%Z)].

Definition example_factors : list factor_row :=
  [FactorRow (Some "AAA") (Some "BBB") "Business" "F" (num 2);
   FactorRow (Some "AAA") (Some "ZZZ") "Business" "F" (num 3)].

(** every grid pair is carried by a row of the table *)
Definition covers_grid (zones : Z) (mx_df : list long_row) : Prop :=
  ∀ p, p ∈ od_grid zones → ∃ r, r ∈ mx_df ∧ on_pair p r.

(** a float that is a number or missing, not an infinity *)
Definition not_inf (x : float) : Prop := x ≠ PInf ∧ x ≠ NInf.

#[export] Instance not_inf_dec x : Decision (not_inf x).
Proof. unfold not_inf. apply _. Defined.

(** the rational of a finite float (0 otherwise), and exact sums *)
Definition fval (x : float) : Qc :=
  match x with Fin q => q | _ => 0 end.

Definition Qc_sum (l : list Qc) : Qc := foldr Qcplus 0 l.

#[export] Instance Qc_sum_perm : Proper ((≡ₚ) ==> (=)) Qc_sum.
Proof.
  unfold Qc_sum. induction 1 as [|q l1 l2 _ IH|q1 q2 l|l1 l2 l3 _ IH1 _ IH2];
    simpl; [done| by rewrite IH | ring | congruence].
Qed.

(** the matrix that [prepare_growth_matrices] builds for one purpose and
    ticket type *)
Definition growth_matrix (factors_df : list station_factor_row)
    (stations : nat) (p ticket_type : string) : ndarray float :=
  long_mx_2_wide_mx
    (expand_matrix (segment_mx factors_df p ticket_type) (Z.of_nat stations)).


(** the exact sum of a rational quantity over the rows of a table *)
Definition total {A} (f : A → Qc) (l : list A) : Qc := Qc_sum (f <$> l).

#[export] Instance total_perm {A} (f : A → Qc) :
  Proper ((≡ₚ) ==> (=)) (total f).
Proof. intros l1 l2 H. unfold total. by rewrite H. Qed.



(** both identifiers of the row are present *)
Definition has_ids (r : long_row) : Prop :=
  is_Some (row_id r) ∧ is_Some (col_id r).


Definition nonzero_key (k : Z * Z) : Prop := k.1 ≠ 0%Z ∧ k.2 ≠ 0%Z.

#[export] Instance nonzero_key_dec k : Decision (nonzero_key k).
Proof. unfold nonzero_key. apply _. Defined.



(** a station identifier of the split probabilities is missing or lies in
    [0..stations_count] *)
Definition valid_stn (stations_count : Z) (k : option Z) : Prop :=
  ∀ z, k = Some z → (0 ≤ z ≤ stations_count)%Z.

#[export] Instance valid_stn_dec n k : Decision (valid_stn n k).
Proof.
  unfold valid_stn. destruct k as [z|].
  - destruct (decide (0 ≤ z ≤ n)%Z) as [H|H].
    + left. by intros ? [= <-].
    + right. intros H'. by apply H, H'.
  - left. done.
Defined.



(** a row of the demand table as it is merged to the split probabilities:
    filled by [expand_matrix] and, for to-home demand, transposed *)
Definition oriented (to_home : bool) (r : long_row) : long_row :=
  if to_home then LongRow (col_id r) (row_id r) (val r) else r.

Definition demand_row (to_home : bool) (d : long_row) : long_row :=
  oriented to_home (fillna_row d).

(** the split probabilities that match a row of the input demand *)
Definition matching (uc : Z) (to_home : bool) (irsj_props : list irsj_row)
    (d : long_row) : list irsj_row :=
  filter (irsj_matches uc (demand_row to_home d)) irsj_props.

(** both stations of the split probability are resolved: present and not
    the zero station *)
Definition resolved (p : irsj_row) : Prop :=
  nonzero_key (default 0%Z (irsj_from_stn_zone_id p),
               default 0%Z (irsj_to_stn_zone_id p)).

#[export] Instance resolved_dec p : Decision (resolved p).
Proof. unfold resolved. apply _. Defined.






(** one zone pair whose only split probability is 1/2 *)
Definition half_demand : list long_row :=
  [LongRow (Some 1%Z) (Some 1%Z) (num 10)].

Definition half_props : list irsj_row :=
  [IrsjRow (Some 1%Z) (Some 1%Z) (Some 1%Z) (Some 1%Z) (Some 1%Z) (frac 1 2)].

(** two rows carry the same identifiers *)
Definition same_ids (r r' : long_row) : Prop := ids r = ids r'.

(** one zone pair, with a demand of 5 and with no demand *)
Definition demand_5 : list long_row :=
  [LongRow (Some 1%Z) (Some 1%Z) (num 5)].

Definition demand_0 : list long_row :=
  [LongRow (Some 1%Z) (Some 1%Z) (num 0)].

(** the working table of [zonal_from_to_stations_demand] with its
    [stn2stn_total_demand] column, of which [zonal_from_to_stns] is made *)
Definition zonal_totals (demand_mx : list long_row)
    (irsj_props : list irsj_row) (uc : Z) (to_home : bool)
    : list (zonal_row * float) :=
  let mx_df := scale_demand <$> zonal_merged demand_mx irsj_props uc to_home in
  merge_totals mx_df (groupby_sum (stn_long <$> mx_df)).



(** ** Auxiliary notions of the further properties *)

Definition swap_pair (p : Z * Z) : Z * Z := (p.2, p.1).

(** the positions of a matrix that hold zero *)
Definition zero_at (m : ndarray float) (pos : nat * nat) : Prop :=
  in_shape m pos.1 pos.2 ∧ eq_zero (cell m pos.1 pos.2) = true.

(** the filled matrix [filled] differs from the original [m] exactly at
    the listed positions *)
Definition changed_at (m filled : ndarray float) (l : list (nat * nat))
    : Prop :=
  ∀ i j, in_shape m i j → (i, j) ∈ l ↔ cell filled i j ≠ cell m i j.

(** the two matrices have one shape and equal cells *)
Definition same_cells (a b : ndarray float) : Prop :=
  shape a = shape b ∧ ∀ i j, in_shape b i j → cell a i j = cell b i j.

(** numpy's rule for one axis of two operands *)
Definition broadcastable (m n : nat) : Prop :=
  m = n ∨ m = 1%nat ∨ n = 1%nat.

Definition broadcastable_shapes {A B} (a : ndarray A) (b : ndarray B)
    : Prop :=
  broadcastable (nrows a) (nrows b) ∧ broadcastable (ncols a) (ncols b).

(** a growth-matrix dict whose matrices for one purpose differ in shape *)
Definition ragged_growth_matrices : growth_dict :=
  {[ "Business" :=
       <["F" := NDArray 2 2 (λ _ _, num 0)]>
         (<["R" := NDArray 3 3 (λ _ _, num 5)]>
            {[ "S" := NDArray 2 2 (λ _ _, num 0) ]}) ]}.


(** the row that [wide_mx_2_long_mx] makes of position [(a, b)] *)
Definition long_row_at (mx_np : ndarray float) (a b : nat) : long_row :=
  LongRow (Some (Z.of_nat a + 1)%Z) (Some (Z.of_nat b + 1)%Z)
    (cell mx_np a b).

(** a 1-by-2 array *)
Definition example_wide : ndarray float :=
  NDArray 1 2 (λ a b, num (Z.of_nat b + 7)).

(** a long matrix on the full 2-by-2 grid *)
Definition example_long : list long_row :=
  [LongRow (Some 1) (Some 1) (num 1); LongRow (Some 1) (Some 2) (num 2);
   LongRow (Some 2) (Some 1) (num 3); LongRow (Some 2) (Some 2) (num 4)]%Z.


(** the split probability takes demand to the pair of stations [k] *)
Definition to_stations (k : Z * Z) (p : irsj_row) : Prop :=
  irsj_from_stn_zone_id p = Some k.1 ∧ irsj_to_stn_zone_id p = Some k.2.

#[export] Instance to_stations_dec k p : Decision (to_stations k p).
Proof. unfold to_stations. apply _. Defined.


(** the value of [stn2stn_total_demand] that the left merge joins to a row
    of the station table [X]: the sum of its station pair, or a missing
    value when one of its stations is missing *)
Definition pair_total (X : list long_row) (x : long_row) : float :=
  match row_id x, col_id x with
  | Some a, Some b => nansum (values_at X a b)
  | _, _ => NaN
  end.

(** the rows of the lookup for the pair of stations [k] *)
Definition lookup_at (k : Z * Z) (row : lookup_row) : Prop :=
  lookup_from_stn_zone_id row = Some k.1
  ∧ lookup_to_stn_zone_id row = Some k.2.

#[export] Instance lookup_at_dec k row : Decision (lookup_at k row).
Proof. unfold lookup_at. apply _. Defined.

(** a growth-matrix dict with a further purpose and a further ticket type *)
Definition wider_growth_matrices : growth_dict :=
  <["Leisure" := {[ "F" := np_scalar (num 2) ]}]>
    {[ "Business" :=
         <["F" := np_scalar (num 0)]>
           (<["R" := np_scalar (num 5)]>
              (<["S" := np_scalar (num 0)]>
                 {[ "A" := np_scalar (num 9) ]})) ]}.

(** the row holds both identifiers and a value *)
Definition present (r : long_row) : Prop := has_ids r ∧ notna (val r).

#[export] Instance present_dec r : Decision (present r).
Proof. unfold present, has_ids, notna. apply _. Defined.

#[export] Instance pair_le_trans : Transitive pair_le.
Proof. intros [a1 a2] [b1 b2] [c1 c2]. unfold pair_le. simpl. lia. Qed.

#[export] Instance pair_le_total : Total pair_le.
Proof. intros [a1 a2] [b1 b2]. unfold pair_le. simpl. lia. Qed.

#[export] Instance pair_le_antisymm : AntiSymm (=) pair_le.
Proof.
  intros [a1 a2] [b1 b2]. unfold pair_le. simpl. intros H1 H2.
  f_equal; lia.
Qed.

(** ** Tactics *)

(** decide a closed, decidable proposition by evaluation *)
Ltac by_compute := apply (bool_decide_unpack _); vm_compute; exact I.

(** * Properties *)

(** ** Sanity checks of the definitions *)

Example nanmean_skips_nan :
  nanmean [num 2; NaN; num 4] = num 3.
Proof. by_compute. Qed.

Example expand_matrix_2 :
  expand_matrix [LongRow (Some 2) (Some 1) (num 7)]%Z 2
  = [LongRow (Some 1) (Some 1) (num 0); LongRow (Some 1) (Some 2) (num 0);
     LongRow (Some 2) (Some 1) (num 7); LongRow (Some 2) (Some 2) (num 0)]%Z.
Proof. by_compute. Qed.

Example long_mx_2_wide_mx_2 :
  tolist (long_mx_2_wide_mx
            (expand_matrix [LongRow (Some 2) (Some 1) (num 7)]%Z 2))
  = [[num 0; num 0]; [num 7; num 0]].
Proof. by_compute. Qed.

(** ** The error monad *)

Lemma result_bind_Ok {A B} (f : A → result B) (m : result A) (b : B) :
  m ≫= f = Ok b ↔ ∃ a, m = Ok a ∧ f a = Ok b.
Proof.
  destruct m as [a|e]; simpl.
  - split; [eauto | by intros (? & [= ->] & ?)].
  - split; [done | by intros (? & ? & ?)].
Qed.

Lemma raises_bind_l {A B} (f : A → result B) (m : result A) :
  raises m → raises (m ≫= f).
Proof. intros [e ->]. by exists e. Qed.


Lemma result_cases {A} (m : result A) : (∃ a, m = Ok a) ∨ raises m.
Proof. destruct m as [a|e]; [left | right]; by eexists. Qed.

Lemma getitem_Ok {V} (d : gmap string V) k v :
  getitem d k = Ok v ↔ d !! k = Some v.
Proof. unfold getitem. destruct (d !! k); naive_solver. Qed.

Lemma getitem_raises {V} (d : gmap string V) k :
  raises (getitem d k) ↔ d !! k = None.
Proof.
  unfold getitem, raises. destruct (d !! k); [|naive_solver].
  split; [by intros [? ?] | done].
Qed.

(** ** Nested dicts *)

Lemma lookup_empty_dicts {V} (ps : list string) p :
  (empty_dicts ps : gmap string (gmap string V)) !! p
  = if decide (p ∈ ps) then Some ∅ else None.
Proof.
  unfold empty_dicts. induction ps as [|q ps IH].
  - rewrite fmap_nil, list_to_map_nil, lookup_empty.
    case_decide; [set_solver | done].
  - rewrite fmap_cons, list_to_map_cons.
    destruct (decide (q = p)) as [->|Hne].
    + rewrite lookup_insert_eq. clear IH. case_decide; [done | set_solver].
    + rewrite lookup_insert_ne by done. rewrite IH.
      repeat case_decide; set_solver.
Qed.

Lemma lookup_setitem2_is_Some {V} (d : gmap string (gmap string V))
    k1 k2 v p :
  is_Some (setitem2 d k1 k2 v !! p) ↔ is_Some (d !! p).
Proof.
  unfold setitem2. destruct (decide (k1 = p)) as [->|Hne].
  - rewrite lookup_alter_eq. by rewrite fmap_is_Some.
  - by rewrite lookup_alter_ne.
Qed.

Lemma lookup2_setitem2 {V} (d : gmap string (gmap string V)) k1 k2 v p t :
  is_Some (d !! k1) →
  lookup2 (setitem2 d k1 k2 v) p t
  = if decide (k1 = p ∧ k2 = t) then Some v else lookup2 d p t.
Proof.
  intros [e He]. unfold lookup2, setitem2.
  destruct (decide (k1 = p)) as [->|Hne].
  - rewrite lookup_alter_eq, He. simpl.
    destruct (decide (k2 = t)) as [->|Hne].
    + rewrite lookup_insert_eq. case_decide; naive_solver.
    + rewrite lookup_insert_ne by done. case_decide; naive_solver.
  - rewrite lookup_alter_ne by done. case_decide; naive_solver.
Qed.

(** ** numpy arrays *)

Lemma shape_np_eq_zero a : shape (np_eq_zero a) = shape a.
Proof. done. Qed.

Lemma broadcast_dim_same n : broadcast_dim n n = Ok n.
Proof. unfold broadcast_dim. by rewrite decide_True. Qed.

Lemma broadcast_dim_scalar n : broadcast_dim n 1 = Ok n.
Proof.
  unfold broadcast_dim. destruct (decide (n = 1%nat)) as [->|Hne]; [done|].
  repeat case_decide; done.
Qed.

Lemma bidx_lt n i : (i < n)%nat → bidx n i = i.
Proof. unfold bidx. case_decide; lia. Qed.

Lemma np_where_same_shape {A} (c : ndarray bool) (x y : ndarray A) :
  shape x = shape c → shape y = shape c →
  ∃ a, np_where c x y = Ok a ∧ shape a = shape c
    ∧ ∀ i j, (i < nrows c)%nat → (j < ncols c)%nat →
        cell a i j = if cell c i j then cell x i j else cell y i j.
Proof.
  unfold shape. intros [= Hxr Hxc] [= Hyr Hyc]. unfold np_where.
  rewrite Hxr, Hxc, Hyr, Hyc, !broadcast_dim_same. simpl.
  rewrite !broadcast_dim_same. simpl.
  eexists. split; [done|]. split; [done|]. intros i j Hi Hj. simpl.
  unfold bcell. rewrite Hxr, Hxc, Hyr, Hyc. by rewrite !bidx_lt.
Qed.

Lemma np_where_scalar (c : ndarray bool) {A} (x : A) (y : ndarray A) :
  shape y = shape c →
  ∃ a, np_where c (np_scalar x) y = Ok a ∧ shape a = shape c
    ∧ ∀ i j, (i < nrows c)%nat → (j < ncols c)%nat →
        cell a i j = if cell c i j then x else cell y i j.
Proof.
  unfold shape. intros [= Hyr Hyc]. unfold np_where. simpl.
  rewrite Hyr, Hyc, !broadcast_dim_scalar. simpl.
  rewrite !broadcast_dim_same. simpl.
  eexists. split; [done|]. split; [done|]. intros i j Hi Hj. simpl.
  unfold bcell. rewrite Hyr, Hyc. by rewrite !bidx_lt.
Qed.

(** ** [fill_missing_factors] *)

Lemma fill_from_same_shape (own first second : ndarray float) :
  shape first = shape own → shape second = shape own →
  ∃ a, fill_from own first second = Ok a ∧ shape a = shape own
    ∧ ∀ i j, (i < nrows own)%nat → (j < ncols own)%nat →
        cell a i j
        = fallback (cell own i j) (cell first i j) (cell second i j).
Proof.
  intros H1 H2. unfold fill_from.
  destruct (np_where_same_shape (np_eq_zero own) first own)
    as (a1 & -> & Hs1 & Hc1); [done..|].
  rewrite shape_np_eq_zero in Hs1.
  destruct (np_where_same_shape (np_eq_zero a1) second a1)
    as (a2 & E2 & Hs2 & Hc2);
    [by rewrite shape_np_eq_zero, H2, Hs1 | done |].
  rewrite shape_np_eq_zero in Hs2.
  simpl. rewrite E2. simpl.
  destruct (np_where_scalar (np_eq_zero a2) (num 1) a2)
    as (a3 & E3 & Hs3 & Hc3); [done|].
  rewrite shape_np_eq_zero in Hs3.
  exists a3. split; [done|].
  assert (shape a2 = shape own) as Hs by (by rewrite Hs2, Hs1).
  split; [by rewrite Hs3|]. intros i j Hi Hj.
  injection Hs as Hr Hc. injection Hs1 as Hr1 Hc1'. simpl in *.
  rewrite Hc3 by lia. rewrite Hc2 by lia. rewrite Hc1 by lia.
  unfold fallback.
  destruct (eq_zero (cell own i j)) eqn:E0; rewrite ?E0; [|done].
  destruct (eq_zero (cell first i j)) eqn:E1; rewrite ?E1; [|done].
  by destruct (eq_zero (cell second i j)) eqn:E2'; rewrite ?E2'.
Qed.

Lemma has_FRS_getitems gm p f r s :
  has_FRS gm p f r s →
  ∃ e, gm !! p = Some e ∧ e !! "F" = Some f ∧ e !! "R" = Some r
       ∧ e !! "S" = Some s.
Proof.
  unfold has_FRS, lookup2. intros (HF & HR & HS).
  destruct (gm !! p) as [e|]; [|done]. by exists e.
Qed.

Lemma fill_purpose_Ok gm p acc f r s ff fr fs :
  has_FRS gm p f r s →
  fill_from f r s = Ok ff → fill_from r f s = Ok fr →
  fill_from s r f = Ok fs →
  ∃ missing,
    fill_purpose gm p acc
    = Ok (setitem2 (setitem2 (setitem2 acc.1 p "F" ff) p "R" fr) p "S" fs,
          missing).
Proof.
  intros (e & He & HF & HR & HS)%has_FRS_getitems Ef Er Es.
  destruct acc as [filled missing]. unfold fill_purpose.
  apply getitem_Ok in He, HF, HR, HS.
  rewrite He. simpl. rewrite HF. simpl. rewrite HR. simpl. rewrite HS. simpl.
  rewrite Ef. simpl. rewrite Er. simpl. rewrite Es. simpl. by eexists.
Qed.

Lemma fill_purpose_raises gm p acc e :
  gm !! p = Some e →
  e !! "F" = None ∨ e !! "R" = None ∨ e !! "S" = None →
  raises (fill_purpose gm p acc).
Proof.
  intros He Hlack. destruct acc as [filled missing].
  unfold fill_purpose, getitem. rewrite He. simpl.
  destruct (e !! "F"); simpl; [|by eexists].
  destruct (e !! "R"); simpl; [|by eexists].
  destruct (e !! "S"); simpl; [|by eexists].
  naive_solver.
Qed.

Lemma fill_loop_raises gm ps acc p e :
  p ∈ ps → gm !! p = Some e →
  e !! "F" = None ∨ e !! "R" = None ∨ e !! "S" = None →
  raises (fill_loop gm ps acc).
Proof.
  intros Hin He Hlack. revert acc.
  induction ps as [|q ps IH]; intros acc; [by apply elem_of_nil in Hin|].
  simpl. destruct (result_cases (fill_purpose gm q acc)) as [[acc' Eq]|Hr];
    [|by apply raises_bind_l].
  apply elem_of_cons in Hin as [->|Hin].
  - by apply raises_bind_l, (fill_purpose_raises gm q acc e).
  - rewrite Eq. simpl. by apply IH.
Qed.

Lemma setitem2_chain_lookup {V} (d : gmap string (gmap string V)) p
    (vf vr vs : V) :
  is_Some (d !! p) →
  let d' := setitem2 (setitem2 (setitem2 d p "F" vf) p "R" vr) p "S" vs in
  lookup2 d' p "F" = Some vf ∧ lookup2 d' p "R" = Some vr
  ∧ lookup2 d' p "S" = Some vs
  ∧ (∀ q, is_Some (d' !! q) ↔ is_Some (d !! q))
  ∧ (∀ q t, q ≠ p → lookup2 d' q t = lookup2 d q t).
Proof.
  intros Hp d'. subst d'.
  assert (∀ q, is_Some
      (setitem2 (setitem2 (setitem2 d p "F" vf) p "R" vr) p "S" vs !! q)
      ↔ is_Some (d !! q)) as Hdom
    by (intros q; by rewrite !lookup_setitem2_is_Some).
  assert (is_Some (setitem2 d p "F" vf !! p)) as H1
    by (by rewrite lookup_setitem2_is_Some).
  assert (is_Some (setitem2 (setitem2 d p "F" vf) p "R" vr !! p)) as H2
    by (by rewrite !lookup_setitem2_is_Some).
  repeat split; try apply Hdom.
  - rewrite !lookup2_setitem2 by done.
    rewrite decide_False by naive_solver.
    rewrite decide_False by naive_solver.
    by rewrite decide_True.
  - rewrite !lookup2_setitem2 by done.
    rewrite decide_False by naive_solver.
    by rewrite decide_True.
  - rewrite !lookup2_setitem2 by done. by rewrite decide_True.
  - intros q t Hne. rewrite !lookup2_setitem2 by done.
    rewrite !decide_False by naive_solver. done.
Qed.

Lemma has_FRS_inj gm p f r s f' r' s' :
  has_FRS gm p f r s → has_FRS gm p f' r' s' → f' = f ∧ r' = r ∧ s' = s.
Proof. unfold has_FRS. naive_solver. Qed.

Lemma fill_loop_spec gm ps : ∀ acc,
  (∀ p, p ∈ ps → is_Some (acc.1 !! p)) →
  complete_for ps gm →
  ∃ res, fill_loop gm ps acc = Ok res
    ∧ (∀ q, is_Some (res.1 !! q) ↔ is_Some (acc.1 !! q))
    ∧ (∀ q t, q ∉ ps → lookup2 res.1 q t = lookup2 acc.1 q t)
    ∧ (∀ p f r s, p ∈ ps → has_FRS gm p f r s → filled_as res.1 p f r s).
Proof.
  induction ps as [|q ps IH]; intros acc Hdom Hgm.
  { exists acc. split; [done|]. split; [done|]. split; [done|].
    intros p f r s Hin. by apply elem_of_nil in Hin. }
  destruct (Hgm q) as (f & r & s & HFRS & Hr & Hs); [by left|].
  destruct (fill_from_same_shape f r s) as (ff & Eff & _); [done..|].
  destruct (fill_from_same_shape r f s) as (fr & Efr & _);
    [congruence..|].
  destruct (fill_from_same_shape s r f) as (fs & Efs & _);
    [congruence..|].
  destruct (fill_purpose_Ok gm q acc f r s ff fr fs) as (missing & Estep);
    [done..|].
  destruct (setitem2_chain_lookup acc.1 q ff fr fs)
    as (HF & HR & HS & Hdom' & Hother); [apply Hdom; by left|].
  simpl in HF, HR, HS, Hdom', Hother.
  destruct (IH (setitem2 (setitem2 (setitem2 acc.1 q "F" ff) q "R" fr)
                  q "S" fs, missing))
    as (res & Eres & Hresdom & Hrest & Hfilled).
  { intros p Hp. simpl. apply Hdom', Hdom. by right. }
  { intros p Hp. apply Hgm. by right. }
  simpl in Hresdom, Hrest.
  exists res. simpl. rewrite Estep. simpl. split; [done|].
  split; [intros q'; by rewrite Hresdom, Hdom'|].
  split.
  { intros q' t [Hne Hnin]%not_elem_of_cons.
    rewrite Hrest by done. by apply Hother. }
  intros p f' r' s' Hin HFRS'.
  destruct (decide (p ∈ ps)) as [Hps|Hps]; [by apply Hfilled|].
  apply elem_of_cons in Hin as [->|?]; [|done].
  destruct (has_FRS_inj _ _ _ _ _ _ _ _ HFRS HFRS') as (-> & -> & ->).
  exists ff, fr, fs. unfold has_FRS. by rewrite !Hrest.
Qed.

Lemma fill_missing_factors_spec ps gm :
  complete_for ps gm →
  ∃ filled missing, fill_missing_factors ps gm = Ok (filled, missing)
    ∧ ∀ p f r s, p ∈ ps → has_FRS gm p f r s → filled_as filled p f r s.
Proof.
  intros Hgm. unfold fill_missing_factors.
  destruct (fill_loop_spec gm ps (empty_dicts ps, empty_dicts ps))
    as ([filled missing] & E & _ & _ & H); [|done|by eauto].
  intros p Hp. simpl. rewrite lookup_empty_dicts. by rewrite decide_True.
Qed.

Lemma fallback_nonzero a b c : eq_zero (fallback a b c) = false.
Proof.
  unfold fallback.
  destruct (eq_zero a) eqn:Ea; [|done].
  destruct (eq_zero b) eqn:Eb; [|done].
  by destruct (eq_zero c) eqn:Ec.
Qed.

Lemma fallback_all_zero a b c :
  eq_zero a = true → eq_zero b = true → eq_zero c = true →
  fallback a b c = num 1.
Proof. unfold fallback. by intros -> -> ->. Qed.

Lemma fallback_source a b c :
  eq_zero a = false ∨ eq_zero b = false ∨ eq_zero c = false →
  fallback a b c ∈ [a; b; c].
Proof.
  unfold fallback. intros H.
  destruct (eq_zero a) eqn:Ea; [|set_solver].
  destruct (eq_zero b) eqn:Eb; [|set_solver].
  destruct (eq_zero c) eqn:Ec; [naive_solver|set_solver].
Qed.

Lemma fill_purpose_inv gm p acc res :
  fill_purpose gm p acc = Ok res →
  ∃ ff fr fs,
    res.1 = setitem2 (setitem2 (setitem2 acc.1 p "F" ff) p "R" fr) p "S" fs.
Proof.
  destruct acc as [filled missing]. unfold fill_purpose. intros H.
  repeat (apply result_bind_Ok in H as (? & _ & H)).
  injection H as <-. by eexists _, _, _.
Qed.

Lemma lookup2_setitem2_Some {V} (d : gmap string (gmap string V))
    k1 k2 v p t m :
  lookup2 (setitem2 d k1 k2 v) p t = Some m →
  (k1 = p ∧ k2 = t) ∨ lookup2 d p t = Some m.
Proof.
  unfold lookup2, setitem2. destruct (decide (k1 = p)) as [->|Hne].
  - rewrite lookup_alter_eq. destruct (d !! p) as [e|]; simpl; [|done].
    destruct (decide (k2 = t)) as [->|Hne]; [by left|].
    rewrite lookup_insert_ne by done. by right.
  - rewrite lookup_alter_ne by done. by right.
Qed.

Lemma fill_loop_keys gm ps : ∀ acc res,
  fill_loop gm ps acc = Ok res →
  ∀ q t m, lookup2 res.1 q t = Some m →
    lookup2 acc.1 q t = Some m ∨ (q ∈ ps ∧ t ∈ ["F"; "R"; "S"]).
Proof.
  induction ps as [|p ps IH]; intros acc res H q t m Hm.
  { injection H as <-. by left. }
  simpl in H. apply result_bind_Ok in H as (acc' & Hstep & H).
  destruct (IH _ _ H _ _ _ Hm) as [Hacc'|[? ?]]; [|right; set_solver].
  apply fill_purpose_inv in Hstep as (ff & fr & fs & E).
  rewrite E in Hacc'.
  apply lookup2_setitem2_Some in Hacc' as [[-> <-]|Hacc'];
    [right; set_solver|].
  apply lookup2_setitem2_Some in Hacc' as [[-> <-]|Hacc'];
    [right; set_solver|].
  apply lookup2_setitem2_Some in Hacc' as [[-> <-]|Hacc'];
    [right; set_solver|].
  by left.
Qed.

Lemma lookup2_empty_dicts {V} ps p t :
  lookup2 (empty_dicts ps : gmap string (gmap string V)) p t = None.
Proof.
  unfold lookup2. rewrite lookup_empty_dicts.
  destruct (decide (p ∈ ps)); [apply lookup_empty | done].
Qed.

Lemma complete_for_example : complete_for ["Business"] example_growth_matrices.
Proof.
  intros p ->%list_elem_of_singleton.
  by exists (np_scalar (num 0)), (np_scalar (num 5)), (np_scalar (num 0)).
Defined.

(** C2: for a growth-matrix dict that holds, for every purpose of the list,
    the three matrices F, R, S of one shape, [fill_missing_factors] returns,
    and every cell of the filled matrices is given by the fallback hierarchy
    on the three original matrices: Full is F, else R, else S, else 1;
    Reduced is R, else F, else S, else 1; Season is S, else R, else F,
    else 1.  On a cell with F=0, R=5, S=0 the filled F is 5; with all three
    0 it is 1; with F=3, R=5, S=0 it is 3. *)
Theorem fill_missing_factors_hierarchy ps gm :
  complete_for ps gm →
  (∃ filled missing, fill_missing_factors ps gm = Ok (filled, missing)
    ∧ ∀ p f r s, p ∈ ps → has_FRS gm p f r s →
        ∃ ff fr fs, has_FRS filled p ff fr fs
          ∧ shape ff = shape f ∧ shape fr = shape f ∧ shape fs = shape f
          ∧ ∀ i j, in_shape f i j →
              cell ff i j
              = fallback (cell f i j) (cell r i j) (cell s i j)
              ∧ cell fr i j
                = fallback (cell r i j) (cell f i j) (cell s i j)
              ∧ cell fs i j
                = fallback (cell s i j) (cell r i j) (cell f i j))
  ∧ fallback (num 0) (num 5) (num 0) = num 5
  ∧ fallback (num 0) (num 0) (num 0) = num 1
  ∧ fallback (num 3) (num 5) (num 0) = num 3.
Proof.
  intros Hgm. split; [|by repeat split; by_compute].
  destruct (fill_missing_factors_spec ps gm Hgm)
    as (filled & missing & E & Hfilled).
  exists filled, missing. split; [done|].
  intros p f r s Hp HFRS.
  destruct (Hgm p Hp) as (f' & r' & s' & HFRS' & Hr & Hs).
  destruct (has_FRS_inj _ _ _ _ _ _ _ _ HFRS HFRS') as (-> & -> & ->).
  destruct (Hfilled p f r s Hp HFRS) as (ff & fr & fs & Hres & Ef & Er & Es).
  destruct (fill_from_same_shape f r s) as (ff' & Ef' & Hsf & Hcf);
    [done..|].
  destruct (fill_from_same_shape r f s) as (fr' & Er' & Hsr & Hcr);
    [congruence..|].
  destruct (fill_from_same_shape s r f) as (fs' & Es' & Hss & Hcs);
    [congruence..|].
  assert (ff' = ff) as -> by congruence.
  assert (fr' = fr) as -> by congruence.
  assert (fs' = fs) as -> by congruence.
  exists ff, fr, fs. split; [done|].
  split; [done|]. split; [congruence|]. split; [congruence|].
  intros i j [Hi Hj]. injection Hr as Hr1 Hr2. injection Hs as Hs1 Hs2.
  split; [by apply Hcf|]. split; [apply Hcr; lia | apply Hcs; lia].
Qed.

Lemma fill_missing_factors_hierarchy_witness :
  complete_for ["Business"] example_growth_matrices
  ∧ ∃ filled missing,
      fill_missing_factors ["Business"] example_growth_matrices
      = Ok (filled, missing)
      ∧ ∃ ff, lookup2 filled "Business" "F" = Some ff
              ∧ cell ff 0 0 = num 5.
Proof.
  split; [exact complete_for_example|].
  destruct (fill_missing_factors_hierarchy ["Business"]
              example_growth_matrices complete_for_example)
    as [(filled & missing & E & H) _].
  exists filled, missing. split; [exact E|].
  destruct (H "Business" (np_scalar (num 0)) (np_scalar (num 5))
              (np_scalar (num 0)))
    as (ff & fr & fs & (HF & _) & _ & _ & _ & Hc).
  { by left. }
  { done. }
  exists ff. split; [exact HF|].
  destruct (Hc 0%nat 0%nat) as (-> & _); [split; simpl; lia|].
  by_compute.
Defined.

Lemma fill_missing_factors_keys ps gm filled missing p t m :
  fill_missing_factors ps gm = Ok (filled, missing) →
  lookup2 filled p t = Some m → p ∈ ps ∧ t ∈ ["F"; "R"; "S"].
Proof.
  intros E Hm. unfold fill_missing_factors in E.
  destruct (fill_loop_keys _ _ _ _ E p t m Hm) as [H|H]; [|done].
  simpl in H. by rewrite lookup2_empty_dicts in H.
Qed.

(** C5: for a growth-matrix dict that holds, for every purpose of the list,
    the three matrices of one shape, every cell of every matrix returned by
    [fill_missing_factors] is non-zero; where the three original matrices
    are all zero the cell is exactly 1, and otherwise it carries the value of
    one of the three original cells. *)
Theorem fill_missing_factors_fully_populated ps gm :
  complete_for ps gm →
  ∃ filled missing, fill_missing_factors ps gm = Ok (filled, missing)
    ∧ (∀ p t m i j, lookup2 filled p t = Some m → in_shape m i j →
         eq_zero (cell m i j) = false)
    ∧ (∀ p f r s, p ∈ ps → has_FRS gm p f r s →
         ∃ ff fr fs, has_FRS filled p ff fr fs
           ∧ ∀ i j, in_shape f i j →
               let sources := [cell f i j; cell r i j; cell s i j] in
               (Forall (λ x, eq_zero x = true) sources →
                  cell ff i j = num 1 ∧ cell fr i j = num 1
                  ∧ cell fs i j = num 1)
               ∧ (Exists (λ x, eq_zero x = false) sources →
                    cell ff i j ∈ sources ∧ cell fr i j ∈ sources
                    ∧ cell fs i j ∈ sources)).
Proof.
  intros Hgm.
  destruct (fill_missing_factors_spec ps gm Hgm)
    as (filled & missing & E & Hfilled).
  exists filled, missing. split; [done|].
  assert (∀ p f r s, p ∈ ps → has_FRS gm p f r s →
    ∃ ff fr fs, has_FRS filled p ff fr fs
      ∧ shape ff = shape f ∧ shape fr = shape f ∧ shape fs = shape f
      ∧ ∀ i j, in_shape f i j →
          cell ff i j = fallback (cell f i j) (cell r i j) (cell s i j)
          ∧ cell fr i j = fallback (cell r i j) (cell f i j) (cell s i j)
          ∧ cell fs i j = fallback (cell s i j) (cell r i j) (cell f i j))
    as Hcells.
  { intros p f r s Hp HFRS.
    destruct (Hgm p Hp) as (f' & r' & s' & HFRS' & Hr & Hs).
    destruct (has_FRS_inj _ _ _ _ _ _ _ _ HFRS HFRS') as (-> & -> & ->).
    destruct (Hfilled p f r s Hp HFRS)
      as (ff & fr & fs & Hres & Ef & Er & Es).
    destruct (fill_from_same_shape f r s) as (ff' & Ef' & Hsf & Hcf);
      [done..|].
    destruct (fill_from_same_shape r f s) as (fr' & Er' & Hsr & Hcr);
      [congruence..|].
    destruct (fill_from_same_shape s r f) as (fs' & Es' & Hss & Hcs);
      [congruence..|].
    assert (ff' = ff) as -> by congruence.
    assert (fr' = fr) as -> by congruence.
    assert (fs' = fs) as -> by congruence.
    exists ff, fr, fs. split; [done|].
    split; [done|]. split; [congruence|]. split; [congruence|].
    intros i j [Hi Hj]. injection Hr as Hr1 Hr2. injection Hs as Hs1 Hs2.
    split; [by apply Hcf|]. split; [apply Hcr; lia | apply Hcs; lia]. }
  split.
  - intros p t m i j Hm Hij.
    destruct (fill_missing_factors_keys _ _ _ _ _ _ _ E Hm) as [Hp Ht].
    destruct (Hgm p Hp) as (f & r & s & HFRS & _).
    destruct (Hcells p f r s Hp HFRS)
      as (ff & fr & fs & (HF & HR & HS) & Hsf & Hsr & Hss & Hc).
    assert (in_shape f i j) as Hij'.
    { unfold in_shape in *. unfold shape in *.
      repeat (apply elem_of_cons in Ht as [->|Ht]);
        [| | |by apply elem_of_nil in Ht];
        simplify_eq; lia. }
    destruct (Hc i j Hij') as (Hcf & Hcr & Hcs).
    repeat (apply elem_of_cons in Ht as [->|Ht]);
      [| | |by apply elem_of_nil in Ht]; simplify_eq.
    + rewrite Hcf. apply fallback_nonzero.
    + rewrite Hcr. apply fallback_nonzero.
    + rewrite Hcs. apply fallback_nonzero.
  - intros p f r s Hp HFRS.
    destruct (Hcells p f r s Hp HFRS)
      as (ff & fr & fs & Hres & _ & _ & _ & Hc).
    exists ff, fr, fs. split; [done|]. intros i j Hij.
    destruct (Hc i j Hij) as (-> & -> & ->). cbv zeta. split.
    + intros Hall.
      apply Forall_cons_1 in Hall as [Hf Hall].
      apply Forall_cons_1 in Hall as [Hr Hall].
      apply Forall_cons_1 in Hall as [Hs _].
      by rewrite !fallback_all_zero.
    + intros Hex. rewrite !Exists_cons, Exists_nil in Hex.
      split; [apply fallback_source; naive_solver|].
      split.
      * assert (fallback (cell r i j) (cell f i j) (cell s i j)
                ∈ [cell r i j; cell f i j; cell s i j]) as H
          by (apply fallback_source; naive_solver).
        set_solver.
      * assert (fallback (cell s i j) (cell r i j) (cell f i j)
                ∈ [cell s i j; cell r i j; cell f i j]) as H
          by (apply fallback_source; naive_solver).
        set_solver.
Qed.

Lemma fill_missing_factors_fully_populated_witness :
  complete_for ["Business"] example_growth_matrices
  ∧ ∃ filled missing,
      fill_missing_factors ["Business"] example_growth_matrices
      = Ok (filled, missing)
      ∧ ∀ p t m i j, lookup2 filled p t = Some m → in_shape m i j →
          eq_zero (cell m i j) = false.
Proof.
  split; [exact complete_for_example|].
  destruct (fill_missing_factors_fully_populated ["Business"]
              example_growth_matrices complete_for_example)
    as (filled & missing & E & H & _).
  exists filled, missing. split; [exact E | exact H].
Defined.

(** ** Lists *)

Lemma filter_or_disjoint {A} (P Q : A → Prop)
    `{!∀ x, Decision (P x), !∀ x, Decision (Q x)} (l : list A) :
  (∀ x, P x → Q x → False) →
  filter (λ x, P x ∨ Q x) l ≡ₚ filter P l ++ filter Q l.
Proof.
  intros Hdisj. induction l as [|x l IH]; [done|].
  rewrite !filter_cons.
  destruct (decide (P x)) as [HP|HP], (decide (Q x)) as [HQ|HQ].
  - by destruct (Hdisj x).
  - rewrite decide_True by (by left). simpl. by rewrite IH.
  - rewrite decide_True by (by right).
    rewrite IH. by rewrite Permutation_middle.
  - rewrite decide_False by naive_solver. done.
Qed.

Lemma filter_nil_Forall {A} (P : A → Prop) `{!∀ x, Decision (P x)}
    (l : list A) :
  filter P l = [] ↔ Forall (λ x, ¬ P x) l.
Proof.
  induction l as [|x l IH]; [by split|].
  rewrite filter_cons. destruct (decide (P x)) as [HP|HP].
  - split; [done|]. intros [? _]%Forall_cons_1. done.
  - rewrite IH. split; [by constructor | by intros [_ ?]%Forall_cons_1].
Qed.

(** ** [expand_matrix] *)

Lemma elem_of_py_range a b k : k ∈ py_range a b ↔ (a ≤ k < b)%Z.
Proof. unfold py_range. rewrite elem_of_seqZ. lia. Qed.

Lemma elem_of_od_grid zones i j :
  (i, j) ∈ od_grid zones ↔ (1 ≤ i ≤ zones)%Z ∧ (1 ≤ j ≤ zones)%Z.
Proof.
  unfold od_grid. rewrite list_elem_of_bind. split.
  - intros (i' & Hj & Hi). apply list_elem_of_fmap in Hj as (j' & [= -> ->] & Hj).
    apply elem_of_py_range in Hi, Hj. lia.
  - intros [Hi Hj]. exists i. split.
    + apply list_elem_of_fmap. exists j. split; [done|].
      apply elem_of_py_range. lia.
    + apply elem_of_py_range. lia.
Qed.

Lemma NoDup_od_grid zones : NoDup (od_grid zones).
Proof.
  unfold od_grid. apply NoDup_bind.
  - intros i1 i2 [i j] _ _ (? & [= -> ->] & _)%list_elem_of_fmap
      (? & [= -> ->] & _)%list_elem_of_fmap. done.
  - intros i _. apply NoDup_fmap_2; [by intros ?? [= ->]|].
    apply NoDup_seqZ.
  - apply NoDup_seqZ.
Qed.

Lemma on_pair_inj p q r : on_pair p r → on_pair q r → p = q.
Proof.
  destruct p, q. unfold on_pair. simpl. intros [-> ->] [[= ->] [= ->]]. done.
Qed.

Lemma bind_filter_on_pair grid mx :
  NoDup grid →
  grid ≫= (λ p, filter (on_pair p) mx)
  ≡ₚ filter (λ r, Exists (λ p, on_pair p r) grid) mx.
Proof.
  induction 1 as [|p grid Hp Hnd IH].
  { simpl. induction mx as [|r mx IHmx]; [done|].
    rewrite filter_cons. rewrite decide_False; [done|].
    by intros ?%Exists_nil. }
  rewrite bind_cons, IH.
  rewrite <- (filter_or_disjoint (on_pair p)
                (λ r, Exists (λ p, on_pair p r) grid)).
  - erewrite list_filter_iff; [done|]. intros r. simpl.
    by rewrite Exists_cons.
  - intros r Hr (q & Hq & Hqr)%Exists_exists.
    destruct Hp. by rewrite (on_pair_inj _ _ _ Hr Hqr).
Qed.

Lemma merge_outer_perm grid mx :
  NoDup grid →
  merge_outer grid mx
  ≡ₚ mx ++ ((λ p, LongRow (Some p.1) (Some p.2) NaN) <$> unmatched grid mx).
Proof.
  intros Hnd. unfold merge_outer.
  assert (grid ≫= (λ p,
            match filter (on_pair p) mx with
            | [] => [LongRow (Some p.1) (Some p.2) NaN]
            | found => found
            end)
          ≡ₚ (grid ≫= (λ p, filter (on_pair p) mx))
             ++ ((λ p, LongRow (Some p.1) (Some p.2) NaN)
                   <$> unmatched grid mx)) as ->.
  { clear Hnd. unfold unmatched.
    induction grid as [|p grid IH]; [done|].
    rewrite !bind_cons, IH, filter_cons.
    destruct (decide (Forall (λ r, ¬ on_pair p r) mx)) as [Hno|Hyes].
    - apply (filter_nil_Forall (on_pair p)) in Hno. rewrite Hno, fmap_cons.
      cbn [app]. apply Permutation_middle.
    - destruct (filter (on_pair p) mx) as [|r found] eqn:E.
      { by apply (filter_nil_Forall (on_pair p)) in E. }
      rewrite <- !app_assoc. done. }
  rewrite bind_filter_on_pair by done.
  rewrite <- app_assoc.
  rewrite (Permutation_app_comm (_ <$> _)), app_assoc.
  apply Permutation_app; [|done].
  rewrite <- (filter_app_complement (λ r, Exists (λ p, on_pair p r) grid) mx)
    at 3.
  apply Permutation_app; [done|].
  erewrite list_filter_iff; [done|]. intros r. simpl.
  rewrite Forall_forall, Exists_exists.
  naive_solver.
Qed.

Lemma expand_matrix_perm mx zones :
  expand_matrix mx zones
  ≡ₚ (fillna_row <$> mx) ++ (zero_row <$> unmatched (od_grid zones) mx).
Proof.
  unfold expand_matrix.
  rewrite merge_outer_perm by apply NoDup_od_grid.
  rewrite fmap_app, <- list_fmap_compose. done.
Qed.

Lemma elem_of_unmatched grid mx p :
  p ∈ unmatched grid mx ↔ p ∈ grid ∧ ∀ r, r ∈ mx → ¬ on_pair p r.
Proof.
  unfold unmatched.
  rewrite list_elem_of_filter, Forall_forall. naive_solver.
Qed.

Lemma NoDup_unmatched grid mx : NoDup grid → NoDup (unmatched grid mx).
Proof. apply NoDup_filter. Qed.

Lemma on_pair_ids p r : on_pair p r ↔ ids r = pair_ids p.
Proof.
  destruct p as [i j], r as [a b v]. unfold on_pair, ids, pair_ids. simpl.
  split; [by intros [-> ->] | by intros [= -> ->]].
Qed.



Lemma elem_of_expand_matrix mx zones r' :
  r' ∈ expand_matrix mx zones
  ↔ (∃ r, r ∈ mx ∧ r' = fillna_row r)
    ∨ (∃ p, p ∈ unmatched (od_grid zones) mx ∧ r' = zero_row p).
Proof.
  rewrite expand_matrix_perm, elem_of_app, !list_elem_of_fmap. naive_solver.
Qed.




(** ** [unique], [groupby] and [pivot_table] *)

Lemma elem_of_unique `{EqDecision A} (l : list A) x :
  x ∈ unique l ↔ x ∈ l.
Proof.
  induction l as [|a l IH]; [done|]. simpl.
  rewrite !elem_of_cons, list_elem_of_filter, IH.
  destruct (decide (x = a)); naive_solver.
Qed.

Lemma NoDup_unique `{EqDecision A} (l : list A) : NoDup (unique l).
Proof.
  induction l as [|a l IH]; [constructor|]. simpl.
  apply NoDup_cons. split; [|by apply NoDup_filter].
  rewrite list_elem_of_filter. naive_solver.
Qed.

Lemma filter_key_NoDup {A K} `{EqDecision K} (f : A → K) (l : list A) x :
  NoDup (f <$> l) → x ∈ l → filter (λ y, f y = f x) l = [x].
Proof.
  induction l as [|a l IH]; intros Hnd Hx; [by apply elem_of_nil in Hx|].
  rewrite fmap_cons in Hnd. apply NoDup_cons in Hnd as [Ha Hnd].
  rewrite filter_cons. apply elem_of_cons in Hx as [->|Hx].
  - rewrite decide_True by done. f_equal.
    apply (filter_nil_Forall (λ y, f y = f a)), Forall_forall.
    intros y Hy Heq. apply Ha. rewrite <- Heq.
    by apply list_elem_of_fmap_2.
  - rewrite decide_False; [by apply IH|].
    intros Heq. apply Ha. rewrite Heq. by apply list_elem_of_fmap_2.
Qed.

Lemma elem_of_keyed mx k v :
  (k, v) ∈ keyed mx ↔ ∃ r, r ∈ mx ∧ on_pair k r ∧ val r = v.
Proof.
  unfold keyed. rewrite list_elem_of_omap. split.
  - intros ([a b w] & Hr & H). exists (LongRow a b w). split; [done|].
    destruct a as [i|], b as [j|]; simplify_eq/=. done.
  - intros ([a b w] & Hr & [Ha Hb] & Hv). exists (LongRow a b w).
    split; [done|]. destruct k. simplify_eq/=. done.
Qed.

Lemma elem_of_keyed_fst mx k :
  k ∈ (keyed mx).*1 ↔ ∃ r, r ∈ mx ∧ on_pair k r.
Proof.
  rewrite list_elem_of_fmap. split.
  - intros ([k' v] & -> & (r & ? & ? & ?)%elem_of_keyed). by exists r.
  - intros (r & Hr & Hon). exists (k, val r). split; [done|].
    apply elem_of_keyed. by exists r.
Qed.

Lemma elem_of_group_keys kv k : k ∈ group_keys kv ↔ k ∈ kv.*1.
Proof. unfold group_keys. by rewrite merge_sort_Permutation, elem_of_unique. Qed.

Lemma NoDup_group_keys kv : NoDup (group_keys kv).
Proof.
  unfold group_keys. rewrite merge_sort_Permutation. apply NoDup_unique.
Qed.

Lemma elem_of_groupby_agg f mx g :
  g ∈ groupby_agg f mx
  ↔ ∃ k, (∃ r, r ∈ mx ∧ on_pair k r)
         ∧ g = LongRow (Some k.1) (Some k.2)
                 (f (group_values k (keyed mx))).
Proof.
  unfold groupby_agg. rewrite list_elem_of_fmap.
  setoid_rewrite elem_of_group_keys. setoid_rewrite elem_of_keyed_fst.
  naive_solver.
Qed.

Lemma ids_groupby_agg f mx :
  ids <$> groupby_agg f mx = pair_ids <$> group_keys (keyed mx).
Proof. unfold groupby_agg. by rewrite <- list_fmap_compose. Qed.

Lemma NoDup_ids_groupby_agg f mx : NoDup (ids <$> groupby_agg f mx).
Proof.
  rewrite ids_groupby_agg. apply NoDup_fmap_2; [apply _|].
  apply NoDup_group_keys.
Qed.

Lemma NoDup_ids_filter (P : long_row → Prop) `{!∀ r, Decision (P r)} l :
  NoDup (ids <$> l) → NoDup (ids <$> filter P l).
Proof.
  induction l as [|r l IH]; [done|]. rewrite fmap_cons, NoDup_cons.
  intros [Hr Hnd]. rewrite filter_cons. destruct (decide (P r)); [|by apply IH].
  rewrite fmap_cons. apply NoDup_cons. split; [|by apply IH].
  intros (r' & Heq & [_ Hr']%list_elem_of_filter)%list_elem_of_fmap.
  apply Hr. rewrite Heq. by apply list_elem_of_fmap_2.
Qed.

Lemma pivot_cell_elem groups i j v :
  NoDup (ids <$> groups) →
  LongRow (Some i) (Some j) v ∈ groups →
  pivot_cell groups i j = v.
Proof.
  intros Hnd Hg. unfold pivot_cell.
  erewrite list_filter_iff;
    [rewrite (filter_key_NoDup ids groups _ Hnd Hg); done|].
  intros g. unfold ids. simpl. split; [by intros [-> ->] | by intros [= -> ->]].
Qed.


Lemma elem_of_pivot_index groups i :
  i ∈ pivot_index groups ↔ ∃ g, g ∈ groups ∧ row_id g = Some i.
Proof.
  unfold pivot_index.
  by rewrite merge_sort_Permutation, elem_of_unique, list_elem_of_omap.
Qed.

Lemma elem_of_pivot_columns groups j :
  j ∈ pivot_columns groups ↔ ∃ g, g ∈ groups ∧ col_id g = Some j.
Proof.
  unfold pivot_columns.
  by rewrite merge_sort_Permutation, elem_of_unique, list_elem_of_omap.
Qed.

Lemma long_mx_2_wide_mx_cell mx a b i j :
  pivot_index (pivot_groups mx) !! a = Some i →
  pivot_columns (pivot_groups mx) !! b = Some j →
  in_shape (long_mx_2_wide_mx mx) a b
  ∧ cell (long_mx_2_wide_mx mx) a b = pivot_cell (pivot_groups mx) i j.
Proof.
  intros Ha Hb. unfold in_shape, long_mx_2_wide_mx. simpl.
  rewrite Ha, Hb. split; [|done].
  split; by eapply lookup_lt_Some.
Qed.

Lemma NoDup_ids_pivot_groups mx : NoDup (ids <$> pivot_groups mx).
Proof. apply NoDup_ids_filter, NoDup_ids_groupby_agg. Qed.

Lemma elem_of_pivot_groups mx g :
  g ∈ pivot_groups mx
  ↔ notna (val g)
    ∧ ∃ k, (∃ r, r ∈ mx ∧ on_pair k r)
           ∧ g = LongRow (Some k.1) (Some k.2)
                   (nanmean (group_values k (keyed mx))).
Proof.
  unfold pivot_groups. by rewrite list_elem_of_filter, elem_of_groupby_agg.
Qed.

Lemma values_at_nil mx i j :
  (∀ r, r ∈ mx → ¬ on_pair (i, j) r) → values_at mx i j = [].
Proof.
  intros Hno. unfold values_at, group_values.
  rewrite (proj2 (filter_nil_Forall _ (keyed mx))); [done|].
  apply Forall_forall. intros [k v] (r & Hr & Hon & _)%elem_of_keyed.
  simpl. intros ->. by apply (Hno r).
Qed.

Lemma values_at_notna_inv mx i j :
  notna (nanmean (values_at mx i j)) → ∃ r, r ∈ mx ∧ on_pair (i, j) r.
Proof.
  intros Hmean.
  destruct (decide (Forall (λ r, ¬ on_pair (i, j) r) mx)) as [Hno|Hyes].
  - rewrite values_at_nil in Hmean; [done|]. by apply Forall_forall.
  - apply not_Forall_Exists in Hyes; [|apply _].
    apply Exists_exists in Hyes as (r & Hr & Hon).
    exists r. split; [done|]. by destruct (decide (on_pair (i, j) r)).
Qed.

(** C4, as amended: [long_mx_2_wide_mx] raises no error on a table with more
    than one row for an identifier pair; it returns the matrix whose cell for
    that pair is the mean of the non-missing values of the pair's rows
    ([pivot_table]'s default aggregation), whenever that mean is a number. *)
Theorem long_mx_2_wide_mx_mean mx i j :
  notna (nanmean (values_at mx i j)) →
  ∃ a b,
    pivot_index (pivot_groups mx) !! a = Some i
    ∧ pivot_columns (pivot_groups mx) !! b = Some j
    ∧ in_shape (long_mx_2_wide_mx mx) a b
    ∧ cell (long_mx_2_wide_mx mx) a b = nanmean (values_at mx i j).
Proof.
  intros Hmean.
  destruct (values_at_notna_inv mx i j Hmean) as (r & Hr & Hon).
  assert (LongRow (Some i) (Some j) (nanmean (values_at mx i j))
          ∈ pivot_groups mx) as Hg.
  { apply elem_of_pivot_groups. split; [done|]. exists (i, j).
    split; [by exists r | done]. }
  assert (i ∈ pivot_index (pivot_groups mx)) as Hi
    by (apply elem_of_pivot_index; by eexists).
  assert (j ∈ pivot_columns (pivot_groups mx)) as Hj
    by (apply elem_of_pivot_columns; by eexists).
  apply list_elem_of_lookup_1 in Hi as [a Ha].
  apply list_elem_of_lookup_1 in Hj as [b Hb].
  exists a, b. split; [done|]. split; [done|].
  destruct (long_mx_2_wide_mx_cell mx a b i j Ha Hb) as [Hin ->].
  split; [done|].
  by apply pivot_cell_elem; [apply NoDup_ids_pivot_groups|].
Qed.

Lemma long_mx_2_wide_mx_mean_witness :
  notna (nanmean (values_at duplicated_pair 1 1))
  ∧ ∃ a b, in_shape (long_mx_2_wide_mx duplicated_pair) a b
           ∧ cell (long_mx_2_wide_mx duplicated_pair) a b
             = nanmean (values_at duplicated_pair 1 1).
Proof.
  assert (notna (nanmean (values_at duplicated_pair 1 1))) as H
    by (vm_compute; reflexivity).
  split; [exact H|].
  destruct (long_mx_2_wide_mx_mean duplicated_pair 1 1 H)
    as (a & b & _ & _ & Hin & Hc).
  exists a, b. split; [exact Hin | exact Hc].
Defined.

(** C4 as stated fails: on a table with two rows for one identifier pair
    [long_mx_2_wide_mx] returns a matrix, and the cell of the pair is the
    mean of the two values. *)
Lemma long_mx_2_wide_mx_aggregates_duplicates :
  ¬ NoDup (ids <$> duplicated_pair)
  ∧ tolist (long_mx_2_wide_mx duplicated_pair) = [[num 3]].
Proof.
  split; [|by_compute].
  intros [H _]%NoDup_cons. apply H. by left.
Qed.

(** ** [merge_to_stations] *)

Lemma omap_bind {A B C} (f : B → option C) (g : A → list B) (l : list A) :
  omap f (l ≫= g) = l ≫= (λ x, omap f (g x)).
Proof.
  induction l as [|x l IH]; [done|].
  by rewrite !bind_cons, omap_app, IH.
Qed.

Lemma omap_fmap {A B C} (f : B → option C) (g : A → B) (l : list A) :
  omap f (g <$> l) = omap (λ x, f (g x)) l.
Proof. induction l as [|x l IH]; [done|]. csimpl. by rewrite IH. Qed.

Lemma filter_bind {A B} (P : B → Prop) `{!∀ x, Decision (P x)}
    (g : A → list B) (l : list A) :
  filter P (l ≫= g) = l ≫= (λ x, filter P (g x)).
Proof.
  induction l as [|x l IH]; [done|].
  by rewrite !bind_cons, filter_app, IH.
Qed.


Lemma merge_right_block_dropna (df : list factor_row) s_from s_to :
  omap (λ row, dropna_row (Some row, s_to))
    (filter (λ row : option factor_row * station,
               row.1 ≫= ZoneCodeTo = STATIONCODE s_to)
       match filter (λ r, ZoneCodeFrom r = STATIONCODE s_from) df with
       | [] => [(None, s_from)]
       | found => (λ r, (Some r, s_from)) <$> found
       end)
  = df ≫= joined s_from s_to.
Proof.
  transitivity
    (omap (λ row, dropna_row (Some row, s_to))
       (filter (λ row : option factor_row * station,
                  row.1 ≫= ZoneCodeTo = STATIONCODE s_to)
          ((λ r, (Some r, s_from))
             <$> filter (λ r, ZoneCodeFrom r = STATIONCODE s_from) df))).
  { destruct (filter (λ r, ZoneCodeFrom r = STATIONCODE s_from) df); [|done].
    rewrite filter_cons. simpl. by case_decide. }
  induction df as [|r df IH]; [done|].
  rewrite bind_cons, <- IH. clear IH. rewrite filter_cons. unfold joined.
  destruct (decide (ZoneCodeFrom r = STATIONCODE s_from)) as [Hf|Hf].
  - rewrite fmap_cons, filter_cons. simpl.
    destruct (decide (ZoneCodeTo r = STATIONCODE s_to)) as [Ht|Ht].
    + simpl.
      destruct (decide (factor_row_notna r ∧ station_notna s_from
                        ∧ station_notna s_to)) as [Hna|Hna].
      * by rewrite decide_True by naive_solver.
      * by rewrite decide_False by naive_solver.
    + by rewrite decide_False by naive_solver.
  - by rewrite decide_False by naive_solver.
Qed.

Lemma merge_to_stations_joined lk df :
  merge_to_stations lk df
  = lk ≫= (λ s_to, lk ≫= (λ s_from, df ≫= joined s_from s_to)).
Proof.
  unfold merge_to_stations, merge_right at 1.
  rewrite omap_bind. apply list_bind_ext; [|done]. intros s_to.
  transitivity
    (omap (λ row, dropna_row (Some row, s_to))
       (filter (λ row : option factor_row * station,
                  row.1 ≫= ZoneCodeTo = STATIONCODE s_to)
          (merge_right ZoneCodeFrom df lk))).
  { destruct (filter _ (merge_right ZoneCodeFrom df lk)); [done|].
    by rewrite omap_fmap. }
  unfold merge_right. rewrite filter_bind, omap_bind.
  apply list_bind_ext; [|done]. intros s_from.
  apply merge_right_block_dropna.
Qed.












(** ** The pivot of a table on the full grid *)

Lemma StronglySorted_seqZ m n : StronglySorted Z.le (seqZ m n).
Proof.
  destruct (decide (n ≤ 0)%Z) as [Hn|Hn].
  { rewrite seqZ_nil by done. constructor. }
  rewrite <- (Z2Nat.id n) by lia. generalize (Z.to_nat n). clear n Hn.
  intros k. revert m. induction k as [|k IH]; intros m.
  { rewrite seqZ_nil by done. constructor. }
  rewrite seqZ_cons by lia.
  replace (Z.pred (Z.of_nat (S k))) with (Z.of_nat k) by lia.
  constructor; [apply IH|].
  apply Forall_forall. intros x Hx%elem_of_seqZ. lia.
Qed.

Lemma sorted_range (l : list Z) n :
  NoDup l → (∀ i, i ∈ l ↔ (1 ≤ i ≤ n)%Z) →
  merge_sort Z.le l = seqZ 1 n.
Proof.
  intros Hnd Hl. apply (StronglySorted_unique Z.le).
  - apply StronglySorted_merge_sort; apply _.
  - apply StronglySorted_seqZ.
  - rewrite merge_sort_Permutation. apply NoDup_Permutation; [done|..].
    + apply NoDup_seqZ.
    + intros i. rewrite Hl, elem_of_seqZ. lia.
Qed.

Lemma group_on_grid mx zones g :
  within_grid zones mx → g ∈ pivot_groups mx →
  ∃ p, p ∈ od_grid zones ∧ on_pair p g.
Proof.
  intros Hin (_ & k & (r & Hr & Hon) & ->)%elem_of_pivot_groups.
  destruct (Hin r Hr) as (p & Hp & Hon').
  rewrite (on_pair_inj _ _ _ Hon Hon'). by exists p.
Qed.

Lemma long_mx_2_wide_mx_full_grid mx zones :
  within_grid zones mx → covers_grid zones mx →
  (∀ p, p ∈ od_grid zones → notna (nanmean (values_at mx p.1 p.2))) →
  shape (long_mx_2_wide_mx mx) = (Z.to_nat zones, Z.to_nat zones)
  ∧ ∀ a b, (a < Z.to_nat zones)%nat → (b < Z.to_nat zones)%nat →
      cell (long_mx_2_wide_mx mx) a b
      = nanmean (values_at mx (Z.of_nat a + 1) (Z.of_nat b + 1)).
Proof.
  intros Hin Hcov Hmean.
  assert (∀ p, p ∈ od_grid zones →
            LongRow (Some p.1) (Some p.2) (nanmean (values_at mx p.1 p.2))
            ∈ pivot_groups mx) as Hgroups.
  { intros [i j] Hp. apply elem_of_pivot_groups. split; [by apply Hmean|].
    exists (i, j). split; [by apply Hcov | done]. }
  assert (pivot_index (pivot_groups mx) = seqZ 1 zones) as Hindex.
  { unfold pivot_index. apply sorted_range; [apply NoDup_unique|].
    intros i. rewrite elem_of_unique, list_elem_of_omap. split.
    - intros (g & Hg & Hi).
      destruct (group_on_grid mx zones g Hin Hg) as ([i' j] & Hp & [Hi' _]).
      apply elem_of_od_grid in Hp. simpl in *. simplify_eq. lia.
    - intros Hi. eexists. split; [apply (Hgroups (i, i))|done].
      by apply elem_of_od_grid. }
  assert (pivot_columns (pivot_groups mx) = seqZ 1 zones) as Hcolumns.
  { unfold pivot_columns. apply sorted_range; [apply NoDup_unique|].
    intros j. rewrite elem_of_unique, list_elem_of_omap. split.
    - intros (g & Hg & Hj).
      destruct (group_on_grid mx zones g Hin Hg) as ([i j'] & Hp & [_ Hj']).
      apply elem_of_od_grid in Hp. simpl in *. simplify_eq. lia.
    - intros Hj. eexists. split; [apply (Hgroups (j, j))|done].
      by apply elem_of_od_grid. }
  split.
  { unfold shape, long_mx_2_wide_mx. simpl.
    by rewrite Hindex, Hcolumns, length_seqZ. }
  intros a b Ha Hb.
  destruct (long_mx_2_wide_mx_cell mx a b (Z.of_nat a + 1) (Z.of_nat b + 1))
    as [_ ->].
  { rewrite Hindex, lookup_seqZ. lia. }
  { rewrite Hcolumns, lookup_seqZ. lia. }
  apply pivot_cell_elem; [apply NoDup_ids_pivot_groups|].
  apply (Hgroups (Z.of_nat a + 1, Z.of_nat b + 1)%Z).
  apply elem_of_od_grid. lia.
Qed.

(** ** float arithmetic *)

Lemma finite_Fin x : finite x ↔ ∃ q, x = Fin q.
Proof. destruct x; simpl; naive_solver. Qed.

Lemma finite_notna x : finite x → notna x.
Proof. by destruct x. Qed.





Lemma filter_notna_finite l : Forall finite l → filter notna l = l.
Proof.
  induction 1 as [|x l Hx _ IH]; [done|].
  rewrite filter_cons_True by (by apply finite_notna). by rewrite IH.
Qed.

Lemma np_sum_list_finite l :
  Forall finite l → np_sum_list l = Fin (Qc_sum (fval <$> l)).
Proof.
  induction 1 as [|x l Hx _ IH]; [done|].
  apply finite_Fin in Hx as [q ->]. unfold np_sum_list in *. simpl.
  by rewrite IH.
Qed.


Lemma Qc_of_nat_nonzero n : n ≠ 0%nat → Qc_of_nat n ≠ 0.
Proof.
  intros Hn Hq. unfold Qc_of_nat in Hq.
  change 0 with (Q2Qc 0) in Hq. apply Q2Qc_eq_iff in Hq.
  unfold Qeq in Hq. simpl in Hq. lia.
Qed.

Lemma nanmean_finite l :
  l ≠ [] → Forall finite l →
  nanmean l = Fin (Qc_sum (fval <$> l) / Qc_of_nat (length l)).
Proof.
  intros Hne Hfin. unfold nanmean. rewrite filter_notna_finite by done.
  rewrite np_sum_list_finite by done. simpl.
  rewrite bool_decide_eq_false_2; [done|].
  apply Qc_of_nat_nonzero. by destruct l.
Qed.



Lemma nanmean_singleton x : finite x → nanmean [x] = x.
Proof.
  intros [q ->]%finite_Fin. rewrite nanmean_finite; [|done|by constructor].
  f_equal. unfold Qc_sum. simpl. rewrite Qcplus_0_r.
  change (Qc_of_nat 1) with 1. unfold Qcdiv.
  change (/ 1) with 1. ring.
Qed.



(** ** [expand_matrix], continued *)





(** ** [prepare_growth_matrices] *)

Lemma foldl_setitem2_lookup {V} (g : string → V) p ts :
  ∀ (d : gmap string (gmap string V)), is_Some (d !! p) →
  (∀ q, is_Some (foldl (λ d t, setitem2 d p t (g t)) d ts !! q)
        ↔ is_Some (d !! q))
  ∧ ∀ q t, lookup2 (foldl (λ d t, setitem2 d p t (g t)) d ts) q t
           = if decide (q = p ∧ t ∈ ts) then Some (g t) else lookup2 d q t.
Proof.
  induction ts as [|t0 ts IH]; intros d Hp.
  { split; [done|]. intros q t. rewrite decide_False; [done|].
    intros [_ H]. by apply elem_of_nil in H. }
  simpl.
  destruct (IH (setitem2 d p t0 (g t0))) as [Hdom Hlook];
    [by apply lookup_setitem2_is_Some|].
  split; [intros q; by rewrite Hdom, lookup_setitem2_is_Some|].
  intros q t. rewrite Hlook, lookup2_setitem2 by done.
  destruct (decide (q = p ∧ t ∈ ts)) as [[-> Ht]|Hno].
  - rewrite decide_True; [done|]. split; [done | by right].
  - destruct (decide (p = q ∧ t0 = t)) as [[-> ->]|Hno'].
    + rewrite decide_True; [done|]. split; [done | by left].
    + rewrite decide_False; [done|].
      intros [-> [->|Ht]%elem_of_cons]; naive_solver.
Qed.

Lemma foldl_foldl_setitem2_lookup {V} (g : string → string → V) ts ps :
  ∀ (d : gmap string (gmap string V)),
  (∀ p, p ∈ ps → is_Some (d !! p)) →
  let res :=
    foldl (λ d p, foldl (λ d t, setitem2 d p t (g p t)) d ts) d ps in
  (∀ q, is_Some (res !! q) ↔ is_Some (d !! q))
  ∧ ∀ q t, lookup2 res q t
           = if decide (q ∈ ps ∧ t ∈ ts) then Some (g q t) else lookup2 d q t.
Proof.
  induction ps as [|p ps IH]; intros d Hdom.
  { split; [done|]. intros q t. rewrite decide_False; [done|].
    intros [H _]. by apply elem_of_nil in H. }
  simpl.
  destruct (foldl_setitem2_lookup (g p) p ts d) as [Hdom1 Hlook1];
    [apply Hdom; by left|].
  destruct (IH (foldl (λ d t, setitem2 d p t (g p t)) d ts))
    as [Hdom2 Hlook2].
  { intros q Hq. apply Hdom1, Hdom. by right. }
  simpl in Hdom2, Hlook2.
  split; [intros q; by rewrite Hdom2, Hdom1|].
  intros q t. rewrite Hlook2, Hlook1.
  destruct (decide (q ∈ ps ∧ t ∈ ts)) as [[Hq Ht]|Hno].
  - rewrite decide_True; [done|]. split; [by right | done].
  - destruct (decide (q = p ∧ t ∈ ts)) as [[-> Ht]|Hno'].
    + rewrite decide_True; [done|]. split; [by left | done].
    + rewrite decide_False; [done|].
      intros [[->|Hq]%elem_of_cons Ht]; naive_solver.
Qed.

Lemma prepare_growth_matrices_lookup segs factors_df lk p t :
  lookup2 (prepare_growth_matrices segs factors_df lk) p t
  = if decide (p ∈ segs ∧ t ∈ TicketType <$> factors_df)
    then Some (growth_matrix (merge_to_stations lk factors_df) (length lk)
                 p t)
    else None.
Proof.
  unfold prepare_growth_matrices.
  destruct (foldl_foldl_setitem2_lookup
              (growth_matrix (merge_to_stations lk factors_df) (length lk))
              (unique (TicketType <$> factors_df)) (unique segs)
              (empty_dicts (unique segs))) as [_ Hlook].
  { intros q Hq. rewrite lookup_empty_dicts. by rewrite decide_True. }
  simpl in Hlook. unfold growth_matrix in Hlook. rewrite Hlook.
  rewrite lookup2_empty_dicts.
  destruct (decide (p ∈ unique segs
                    ∧ t ∈ unique (TicketType <$> factors_df))) as [H|H];
    rewrite !elem_of_unique in H;
    destruct (decide (p ∈ segs ∧ t ∈ TicketType <$> factors_df)); done.
Qed.







(** ** [fill_missing_factors] on an incomplete dict *)

Lemma fill_purpose_raises_lookup2 gm p acc :
  lookup2 gm p "F" = None ∨ lookup2 gm p "R" = None
  ∨ lookup2 gm p "S" = None →
  raises (fill_purpose gm p acc).
Proof.
  unfold lookup2. intros Hlack.
  destruct (gm !! p) as [e|] eqn:He.
  - by apply (fill_purpose_raises gm p acc e).
  - destruct acc as [filled missing]. unfold fill_purpose, getitem.
    rewrite He. by eexists.
Qed.

Lemma fill_loop_raises_lookup2 gm ps acc p :
  p ∈ ps →
  lookup2 gm p "F" = None ∨ lookup2 gm p "R" = None
  ∨ lookup2 gm p "S" = None →
  raises (fill_loop gm ps acc).
Proof.
  intros Hin Hlack. revert acc.
  induction ps as [|q ps IH]; intros acc; [by apply elem_of_nil in Hin|].
  simpl. destruct (result_cases (fill_purpose gm q acc)) as [[acc' Eq]|Hr];
    [|by apply raises_bind_l].
  apply elem_of_cons in Hin as [->|Hin].
  - by apply raises_bind_l, fill_purpose_raises_lookup2.
  - rewrite Eq. simpl. by apply IH.
Qed.

(** C10: for every purpose of the list, [fill_missing_factors] raises when
    the entry of that purpose lacks one of the keys "F", "R", "S"; and since
    [prepare_growth_matrices] creates entries only for the ticket types that
    occur in the growth-factor records, the fill of its result raises, for
    every purpose, when one of the three ticket types occurs in no record. *)
Theorem fill_missing_factors_raises ps p :
  p ∈ ps →
  (∀ gm e, gm !! p = Some e →
     e !! "F" = None ∨ e !! "R" = None ∨ e !! "S" = None →
     raises (fill_missing_factors ps gm))
  ∧ (∀ segs df lk t, t ∈ ["F"; "R"; "S"] → t ∉ (TicketType <$> df) →
       raises (fill_missing_factors ps
                 (prepare_growth_matrices segs df lk))).
Proof.
  intros Hp. split.
  - intros gm e He Hlack. unfold fill_missing_factors.
    by apply (fill_loop_raises gm ps _ p e).
  - intros segs df lk t Ht Hno. unfold fill_missing_factors.
    apply (fill_loop_raises_lookup2 _ ps _ p Hp).
    assert (lookup2 (prepare_growth_matrices segs df lk) p t = None) as Hnone.
    { rewrite prepare_growth_matrices_lookup.
      by rewrite decide_False by naive_solver. }
    repeat (apply elem_of_cons in Ht as [->|Ht]);
      [| | |by apply elem_of_nil in Ht]; auto.
Qed.

Lemma fill_missing_factors_raises_witness :
  "Business" ∈ ["Business"]
  ∧ "S" ∈ ["F"; "R"; "S"]
  ∧ ("S" ∉ (TicketType <$> example_factors))
  ∧ raises (fill_missing_factors ["Business"]
              (prepare_growth_matrices ["Business"] example_factors
                 example_stations)).
Proof.
  assert ("Business" ∈ ["Business"]) as H1 by by_compute.
  assert ("S" ∈ ["F"; "R"; "S"]) as H2 by by_compute.
  assert ("S" ∉ (TicketType <$> example_factors)) as H3 by by_compute.
  split; [exact H1|]. split; [exact H2|]. split; [exact H3|].
  exact (proj2 (fill_missing_factors_raises ["Business"] "Business" H1)
           ["Business"] example_factors example_stations "S" H2 H3).
Defined.

(** ** Exact sums *)












(** ** The sum of a pivoted table *)

Lemma keyed_cons r mx :
  keyed (r :: mx)
  = match row_id r, col_id r with
    | Some i, Some j => ((i, j), val r) :: keyed mx
    | _, _ => keyed mx
    end.
Proof. unfold keyed. csimpl. by destruct (row_id r), (col_id r). Qed.

Lemma values_at_filter mx i j :
  values_at mx i j = val <$> filter (on_pair (i, j)) mx.
Proof.
  unfold values_at, group_values. induction mx as [|[a b v] mx IH]; [done|].
  rewrite keyed_cons, (filter_cons (on_pair (i, j))). unfold on_pair at 1.
  simpl.
  destruct (decide (a = Some i ∧ b = Some j)) as [[-> ->]|Hno].
  - rewrite filter_cons, decide_True by done. by rewrite !fmap_cons, IH.
  - destruct a as [a|], b as [b|]; try done.
    rewrite filter_cons, decide_False; [done|].
    intros [= -> ->]. by apply Hno.
Qed.

Lemma values_at_unique mx i j r :
  NoDup (ids <$> mx) → r ∈ mx → on_pair (i, j) r →
  values_at mx i j = [val r].
Proof.
  intros Hnd Hr Hon. rewrite values_at_filter.
  erewrite list_filter_iff; [by rewrite (filter_key_NoDup ids mx r)|].
  intros r'. simpl. rewrite !on_pair_ids.
  apply on_pair_ids in Hon. by rewrite Hon.
Qed.




Lemma long_row_eta r : LongRow (row_id r) (col_id r) (val r) = r.
Proof. by destruct r. Qed.


(** ** [groupby(...).sum()] followed by the removal of the zero stations *)





Lemma filter_fmap {A B} (P : B → Prop) `{!∀ x, Decision (P x)}
    (f : A → B) (l : list A) :
  filter P (f <$> l) = f <$> filter (λ x, P (f x)) l.
Proof.
  induction l as [|x l IH]; [done|].
  rewrite fmap_cons, !filter_cons, IH. by destruct (decide (P (f x))).
Qed.




Lemma elem_of_groupby_sum mx g :
  g ∈ groupby_sum mx
  ↔ ∃ k, (∃ r, r ∈ mx ∧ on_pair k r)
         ∧ g = LongRow (Some k.1) (Some k.2) (nansum (values_at mx k.1 k.2)).
Proof.
  unfold groupby_sum. rewrite elem_of_groupby_agg.
  split; intros ([i j] & H & ->); by exists (i, j).
Qed.





Lemma fillna_row_has_ids r :
  has_ids r → fillna_row r = LongRow (row_id r) (col_id r) (fillna0 (val r)).
Proof.
  destruct r as [[a|] [b|] v]; unfold has_ids; simpl;
    intros [[? ?] [? ?]]; by simplify_eq.
Qed.









(** ** [zonal_from_to_stations_demand] *)





Lemma fmul_NaN_r x : fmul x NaN = NaN.
Proof. by destruct x. Qed.


Lemma fmul_finite x y : finite x → finite y → finite (fmul x y).
Proof. by destruct x, y. Qed.



Lemma transpose_matrix_oriented (to_home : bool) mx :
  (if to_home then transpose_matrix mx else mx) = oriented to_home <$> mx.
Proof.
  destruct to_home; [done|]. unfold oriented. by rewrite list_fmap_id.
Qed.












(** ** The unreported [missing_props] *)

Lemma same_ids_on_pair p r r' : same_ids r r' → on_pair p r ↔ on_pair p r'.
Proof. unfold same_ids. intros H. by rewrite !on_pair_ids, H. Qed.

Lemma merge_outer_same_ids grid mx mx' :
  Forall2 same_ids mx mx' →
  Forall2 same_ids (merge_outer grid mx) (merge_outer grid mx').
Proof.
  intros H. unfold merge_outer. apply Forall2_app.
  - apply Forall2_bind, Forall_Forall2_diag, Forall_forall. intros p _.
    assert (Forall2 same_ids (filter (on_pair p) mx)
              (filter (on_pair p) mx')) as Hf.
    { apply Forall2_filter; [|done]. intros r r'. apply same_ids_on_pair. }
    destruct Hf; [by repeat constructor | by constructor].
  - apply Forall2_filter; [|done]. intros r r' Hr.
    rewrite !Forall_forall. split; intros Hno p Hp.
    + rewrite <- (same_ids_on_pair p r r' Hr). by apply Hno.
    + rewrite (same_ids_on_pair p r r' Hr). by apply Hno.
Qed.

Lemma expand_matrix_same_ids mx mx' zones :
  Forall2 same_ids mx mx' →
  ids <$> expand_matrix mx zones = ids <$> expand_matrix mx' zones.
Proof.
  intros H. unfold expand_matrix.
  apply (merge_outer_same_ids (od_grid zones)) in H.
  induction H as [|r r' l l' Hr _ IH]; [done|].
  rewrite !fmap_cons, IH. f_equal.
  unfold same_ids, ids in *. simpl. by injection Hr as -> ->.
Qed.

Lemma merge_irsj_nil D uc :
  merge_irsj D uc []
  = (λ d, ZonalRow (row_id d) (col_id d) (val d) uc None None NaN) <$> D.
Proof. induction D as [|d D IH]; [done|]. csimpl. by rewrite <- IH. Qed.

Lemma scaled_without_props demand_mx uc :
  scale_demand <$> zonal_merged demand_mx [] uc false
  = (λ k, ZonalRow k.1 k.2 NaN uc None None NaN)
      <$> (ids <$> expand_matrix demand_mx default_zones).
Proof.
  unfold zonal_merged. rewrite merge_irsj_nil, <- !list_fmap_compose.
  apply list_fmap_ext. intros i d _. unfold scale_demand. simpl.
  by rewrite fmul_NaN_r.
Qed.

(** C3: the zone pairs with positive demand and no proportion are computed
    (the local [missing_props]) but they do not reach the caller.  For one
    zone pair without any split probability, [missing_props] holds the pair
    when its demand is 5 and is empty when its demand is 0, while the two
    values returned by [zonal_from_to_stations_demand] are the same in both
    cases. *)
Theorem missing_props_not_returned :
  (Some 1%Z, Some 1%Z) ∈ missing_props (zonal_merged demand_5 [] 1 false)
  ∧ missing_props (zonal_merged demand_0 [] 1 false) = []
  ∧ zonal_from_to_stations_demand demand_5 [] 1 1 false
    = zonal_from_to_stations_demand demand_0 [] 1 1 false.
Proof.
  split; [|split].
  - unfold missing_props, zonal_merged. rewrite merge_irsj_nil.
    apply list_elem_of_fmap.
    exists (ZonalRow (Some 1%Z) (Some 1%Z) (num 5) 1 None None NaN).
    split; [done|]. apply list_elem_of_filter. split; [by split|].
    apply list_elem_of_fmap.
    exists (LongRow (Some 1%Z) (Some 1%Z) (num 5)). split; [done|].
    apply elem_of_expand_matrix. left.
    exists (LongRow (Some 1%Z) (Some 1%Z) (num 5)).
    split; [by left | done].
  - unfold missing_props, zonal_merged. rewrite merge_irsj_nil.
    match goal with
    | |- _ <$> ?l = [] => assert (l = []) as Hnil; [|by rewrite Hnil]
    end.
    apply filter_nil_Forall.
    apply Forall_fmap, Forall_forall. intros d Hd. simpl. intros [_ Hpos].
    apply elem_of_expand_matrix in Hd as [(d0 & Hd0 & ->)|(p & _ & ->)].
    + by apply list_elem_of_singleton in Hd0 as ->.
    + done.
  - unfold zonal_from_to_stations_demand. cbv zeta.
    rewrite !scaled_without_props.
    by rewrite (expand_matrix_same_ids demand_5 demand_0)
      by (by repeat constructor).
Qed.

(** ** Missing values in the outputs *)

Lemma zonal_lookup_unfold demand_mx irsj_props S uc to_home :
  (zonal_from_to_stations_demand demand_mx irsj_props S uc to_home).2
  = lookup_of <$> zonal_totals demand_mx irsj_props uc to_home.
Proof. done. Qed.





Lemma fdiv_zero_zero : fdiv (Fin 0) (Fin 0) = NaN.
Proof. done. Qed.







(** * Further properties *)

(** ** [filter_stations] and [merge_to_stations] without preconditions *)

Lemma bind_ext_in {A B} (f g : A → list B) (l : list A) :
  (∀ x, x ∈ l → f x = g x) → l ≫= f = l ≫= g.
Proof.
  induction l as [|x l IH]; intros Hfg; [done|].
  rewrite !bind_cons, (Hfg x), IH; [done| |]; set_solver.
Qed.

Lemma bind_filter_nil {A B} (P : A → Prop) `{!∀ x, Decision (P x)}
    (f : A → list B) (l : list A) :
  (∀ x, ¬ P x → f x = []) → filter P l ≫= f = l ≫= f.
Proof.
  intros Hnil. induction l as [|x l IH]; [done|].
  rewrite filter_cons, bind_cons. destruct (decide (P x)) as [HP|HP].
  - by rewrite bind_cons, IH.
  - by rewrite IH, (Hnil x HP).
Qed.

Lemma elem_of_joined s_from s_to r row :
  row ∈ joined s_from s_to r
  ↔ ZoneCodeFrom r = STATIONCODE s_from ∧ ZoneCodeTo r = STATIONCODE s_to
    ∧ factor_row_notna r ∧ station_notna s_from ∧ station_notna s_to
    ∧ row = StationFactorRow r (stn_zone_id s_from) (stn_zone_id s_to).
Proof.
  unfold joined. case_decide as H.
  - rewrite list_elem_of_singleton. naive_solver.
  - rewrite elem_of_nil. naive_solver.
Qed.


Lemma merge_to_stations_filtered lk df :
  merge_to_stations lk (filter_stations lk df) = merge_to_stations lk df.
Proof.
  rewrite !merge_to_stations_joined.
  apply bind_ext_in. intros s_to Hto.
  apply bind_ext_in. intros s_from Hfrom.
  unfold filter_stations. apply bind_filter_nil.
  intros r Hr. unfold joined. case_decide as H; [|done].
  destruct H as (Hf & Ht & _). destruct Hr.
  rewrite Hf, Ht. split; by apply list_elem_of_fmap_2.
Qed.

(** X2: filtering the table with [filter_stations] before
    [merge_to_stations] changes nothing, and every row that
    [merge_to_stations] returns stems from a row that [filter_stations]
    keeps. *)
Theorem filter_stations_redundant lk df :
  merge_to_stations lk (filter_stations lk df) = merge_to_stations lk df
  ∧ ∀ row, row ∈ merge_to_stations lk df →
      factors row ∈ filter_stations lk df.
Proof.
  split; [apply merge_to_stations_filtered|].
  intros row Hrow. rewrite merge_to_stations_joined in Hrow.
  apply list_elem_of_bind in Hrow as (s_to & Hrow & Hto).
  apply list_elem_of_bind in Hrow as (s_from & Hrow & Hfrom).
  apply list_elem_of_bind in Hrow as (r & Hrow & Hr).
  apply elem_of_joined in Hrow as (Hf & Ht & _ & _ & _ & ->).
  unfold filter_stations. apply list_elem_of_filter. simpl.
  split; [|done]. rewrite Hf, Ht. split; by apply list_elem_of_fmap_2.
Qed.

(** ** [expand_matrix] on arbitrary tables *)

Lemma fmap_ext_all {A B} (f g : A → B) (l : list A) :
  (∀ x, f x = g x) → f <$> l = g <$> l.
Proof. intros H. apply list_fmap_ext. auto. Qed.






(** ** [transpose_matrix] *)

Lemma elem_of_transpose_matrix mx r :
  r ∈ transpose_matrix mx
  ↔ LongRow (col_id r) (row_id r) (val r) ∈ mx.
Proof.
  unfold transpose_matrix. rewrite list_elem_of_fmap. split.
  - intros ([a b v] & -> & H). done.
  - intros H. eexists. split; [|exact H]. by destruct r.
Qed.

Lemma unmatched_transpose zones mx :
  unmatched (od_grid zones) (transpose_matrix mx)
  ≡ₚ swap_pair <$> unmatched (od_grid zones) mx.
Proof.
  apply NoDup_Permutation.
  - apply NoDup_unmatched, NoDup_od_grid.
  - apply NoDup_fmap_2.
    + intros [a b] [c d] [= -> ->]. done.
    + apply NoDup_unmatched, NoDup_od_grid.
  - intros [i j]. rewrite list_elem_of_fmap, elem_of_unmatched.
    split.
    + intros [Hg Hno]. exists (j, i). split; [done|].
      apply elem_of_unmatched. split.
      * apply elem_of_od_grid. apply elem_of_od_grid in Hg. lia.
      * intros r Hr [Hi Hj].
        apply (Hno (LongRow (col_id r) (row_id r) (val r))).
        -- apply elem_of_transpose_matrix. simpl. by destruct r.
        -- by split.
    + intros ([a b] & [= -> ->] & H).
      apply elem_of_unmatched in H as [Hg Hno]. split.
      * apply elem_of_od_grid. apply elem_of_od_grid in Hg. lia.
      * intros r Hr [Hi Hj]. apply elem_of_transpose_matrix in Hr.
        apply (Hno _ Hr). by split.
Qed.

(** X4: [transpose_matrix] is its own inverse, and it commutes with
    [expand_matrix]: expanding the transposed table gives the rows of the
    transposed expansion. *)
Theorem transpose_matrix_expand mx zones :
  transpose_matrix (transpose_matrix mx) = mx
  ∧ expand_matrix (transpose_matrix mx) zones
    ≡ₚ transpose_matrix (expand_matrix mx zones).
Proof.
  split.
  - unfold transpose_matrix. rewrite <- list_fmap_compose.
    rewrite <- (list_fmap_id mx) at 2. apply fmap_ext_all.
    by intros [a b v].
  - unfold transpose_matrix at 2.
    rewrite !expand_matrix_perm, fmap_app.
    apply Permutation_app.
    + unfold transpose_matrix. rewrite <- !list_fmap_compose.
      rewrite (fmap_ext_all (fillna_row ∘ _)
                 ((λ r, LongRow (col_id r) (row_id r) (val r)) ∘ fillna_row));
        [done|].
      by intros [[a|] [b|] v].
    + rewrite unmatched_transpose, <- !list_fmap_compose.
      rewrite (fmap_ext_all (zero_row ∘ swap_pair)
                 ((λ r, LongRow (col_id r) (row_id r) (val r)) ∘ zero_row));
        [done|].
      by intros [a b].
Qed.

(** ** [fill_missing_factors]: the reported positions *)

Lemma elem_of_np_argwhere c i j :
  (i, j) ∈ np_argwhere c ↔ in_shape c i j ∧ cell c i j = true.
Proof.
  unfold np_argwhere, in_shape. rewrite list_elem_of_bind. split.
  - intros (i' & H & Hi). apply list_elem_of_bind in H as (j' & H & Hj).
    apply list_elem_of_singleton in H as [= -> ->].
    apply list_elem_of_filter in Hj as [Hc Hj].
    apply elem_of_seq in Hi, Hj. split; [lia | done].
  - intros [[Hi Hj] Hc]. exists i. split; [|apply elem_of_seq; lia].
    apply list_elem_of_bind. exists j. split; [by apply list_elem_of_singleton|].
    apply list_elem_of_filter. split; [done|]. apply elem_of_seq. lia.
Qed.

Lemma np_argwhere_nil c :
  (∀ i j, in_shape c i j → cell c i j = false) → np_argwhere c = [].
Proof.
  intros Hc. apply elem_of_nil_inv. intros [i j] [Hij H]%elem_of_np_argwhere.
  rewrite Hc in H by done. done.
Qed.

Lemma fill_purpose_inv_missing gm p acc res :
  fill_purpose gm p acc = Ok res →
  ∃ f r s, has_FRS gm p f r s
    ∧ res.2 = setitem2 (setitem2 (setitem2 acc.2 p "F"
                                    (np_argwhere (np_eq_zero f)))
                          p "R" (np_argwhere (np_eq_zero r)))
                p "S" (np_argwhere (np_eq_zero s)).
Proof.
  destruct acc as [filled missing]. unfold fill_purpose. intros H.
  apply result_bind_Ok in H as (e & He & H).
  apply result_bind_Ok in H as (f & Hf & H).
  apply result_bind_Ok in H as (r & Hr & H).
  apply result_bind_Ok in H as (s & Hs & H).
  repeat (apply result_bind_Ok in H as (? & _ & H)).
  injection H as <-.
  apply getitem_Ok in He, Hf, Hr, Hs.
  exists f, r, s. split; [|done].
  unfold has_FRS, lookup2. rewrite He. simpl. done.
Qed.

Lemma fill_loop_missing gm ps : ∀ acc res,
  (∀ p, p ∈ ps → is_Some (acc.2 !! p)) →
  fill_loop gm ps acc = Ok res →
  (∀ q, is_Some (res.2 !! q) ↔ is_Some (acc.2 !! q))
  ∧ (∀ q t, q ∉ ps → lookup2 res.2 q t = lookup2 acc.2 q t)
  ∧ (∀ p f r s, p ∈ ps → has_FRS gm p f r s →
       lookup2 res.2 p "F" = Some (np_argwhere (np_eq_zero f))
       ∧ lookup2 res.2 p "R" = Some (np_argwhere (np_eq_zero r))
       ∧ lookup2 res.2 p "S" = Some (np_argwhere (np_eq_zero s))).
Proof.
  induction ps as [|q ps IH]; intros acc res Hdom H.
  { injection H as <-. split; [done|]. split; [done|].
    intros p f r s Hin. by apply elem_of_nil in Hin. }
  simpl in H. apply result_bind_Ok in H as (acc' & Hstep & H).
  apply fill_purpose_inv_missing in Hstep as (f & r & s & HFRS & E).
  destruct (setitem2_chain_lookup acc.2 q
              (np_argwhere (np_eq_zero f)) (np_argwhere (np_eq_zero r))
              (np_argwhere (np_eq_zero s)))
    as (HF & HR & HS & Hdom' & Hother); [apply Hdom; by left|].
  simpl in HF, HR, HS, Hdom', Hother. rewrite <- E in *.
  destruct (IH acc' res) as (Hresdom & Hrest & Hps); [|done|].
  { intros p Hp. apply Hdom', Hdom. by right. }
  split; [intros q'; by rewrite Hresdom, Hdom'|].
  split.
  { intros q' t [Hne Hnin]%not_elem_of_cons.
    rewrite Hrest by done. by apply Hother. }
  intros p f' r' s' Hin HFRS'.
  destruct (decide (p ∈ ps)) as [Hp|Hp]; [by apply Hps|].
  apply elem_of_cons in Hin as [->|?]; [|done].
  destruct (has_FRS_inj _ _ _ _ _ _ _ _ HFRS HFRS') as (-> & -> & ->).
  by rewrite !Hrest.
Qed.

Lemma fill_missing_factors_cells ps gm :
  complete_for ps gm →
  ∃ filled missing, fill_missing_factors ps gm = Ok (filled, missing)
    ∧ ∀ p f r s, p ∈ ps → has_FRS gm p f r s →
        ∃ ff fr fs, has_FRS filled p ff fr fs
          ∧ shape ff = shape f ∧ shape fr = shape f ∧ shape fs = shape f
          ∧ shape r = shape f ∧ shape s = shape f
          ∧ ∀ i j, in_shape f i j →
              cell ff i j = fallback (cell f i j) (cell r i j) (cell s i j)
              ∧ cell fr i j
                = fallback (cell r i j) (cell f i j) (cell s i j)
              ∧ cell fs i j
                = fallback (cell s i j) (cell r i j) (cell f i j).
Proof.
  intros Hgm.
  destruct (fill_missing_factors_spec ps gm Hgm)
    as (filled & missing & E & Hfilled).
  exists filled, missing. split; [done|].
  intros p f r s Hp HFRS.
  destruct (Hgm p Hp) as (f' & r' & s' & HFRS' & Hr & Hs).
  destruct (has_FRS_inj _ _ _ _ _ _ _ _ HFRS HFRS') as (-> & -> & ->).
  destruct (Hfilled p f r s Hp HFRS) as (ff & fr & fs & Hres & Ef & Er & Es).
  destruct (fill_from_same_shape f r s) as (ff' & Ef' & Hsf & Hcf);
    [done..|].
  destruct (fill_from_same_shape r f s) as (fr' & Er' & Hsr & Hcr);
    [congruence..|].
  destruct (fill_from_same_shape s r f) as (fs' & Es' & Hss & Hcs);
    [congruence..|].
  assert (ff' = ff) as -> by congruence.
  assert (fr' = fr) as -> by congruence.
  assert (fs' = fs) as -> by congruence.
  exists ff, fr, fs. split; [done|].
  split; [done|]. split; [congruence|]. split; [congruence|].
  split; [done|]. split; [done|].
  intros i j [Hi Hj]. injection Hr as Hr1 Hr2. injection Hs as Hs1 Hs2.
  split; [by apply Hcf|]. split; [apply Hcr; lia | apply Hcs; lia].
Qed.

Lemma fallback_changed own first second :
  fallback own first second ≠ own ↔ eq_zero own = true.
Proof.
  split.
  - unfold fallback. destruct (eq_zero own); naive_solver.
  - intros H E. pose proof (fallback_nonzero own first second) as Hnz.
    rewrite E in Hnz. congruence.
Qed.

(** X5: the second value returned by [fill_missing_factors] lists, for
    every purpose and ticket type, exactly the positions at which the
    original matrix holds 0, and these are exactly the positions at which
    the filled matrix differs from the original one. *)
Theorem fill_missing_factors_positions ps gm :
  complete_for ps gm →
  ∃ filled missing, fill_missing_factors ps gm = Ok (filled, missing)
    ∧ ∀ p f r s, p ∈ ps → has_FRS gm p f r s →
        ∃ ff fr fs mf mr ms,
          has_FRS filled p ff fr fs
          ∧ lookup2 missing p "F" = Some mf
          ∧ lookup2 missing p "R" = Some mr
          ∧ lookup2 missing p "S" = Some ms
          ∧ (∀ pos, pos ∈ mf ↔ zero_at f pos)
          ∧ (∀ pos, pos ∈ mr ↔ zero_at r pos)
          ∧ (∀ pos, pos ∈ ms ↔ zero_at s pos)
          ∧ changed_at f ff mf ∧ changed_at r fr mr ∧ changed_at s fs ms.
Proof.
  intros Hgm.
  destruct (fill_missing_factors_cells ps gm Hgm)
    as (filled & missing & E & Hcells).
  exists filled, missing. split; [done|].
  intros p f r s Hp HFRS.
  destruct (Hcells p f r s Hp HFRS)
    as (ff & fr & fs & Hres & _ & _ & _ & Hr & Hs & Hc).
  destruct (fill_loop_missing gm ps (empty_dicts ps, empty_dicts ps)
              (filled, missing)) as (_ & _ & Hm); [|exact E|].
  { intros q Hq. simpl. rewrite lookup_empty_dicts. by rewrite decide_True. }
  destruct (Hm p f r s Hp HFRS) as (HF & HR & HS). simpl in HF, HR, HS.
  exists ff, fr, fs, (np_argwhere (np_eq_zero f)),
    (np_argwhere (np_eq_zero r)), (np_argwhere (np_eq_zero s)).
  split; [done|]. split; [exact HF|]. split; [exact HR|]. split; [exact HS|].
  assert (∀ m pos, pos ∈ np_argwhere (np_eq_zero m) ↔ zero_at m pos)
    as Hpos.
  { intros m [i j]. by rewrite elem_of_np_argwhere. }
  split; [apply Hpos|]. split; [apply Hpos|]. split; [apply Hpos|].
  injection Hr as Hr1 Hr2. injection Hs as Hs1 Hs2.
  split; [|split].
  - intros i j Hij. destruct (Hc i j Hij) as (-> & _ & _).
    rewrite fallback_changed, Hpos. unfold zero_at. naive_solver.
  - intros i j Hij. destruct (Hc i j) as (_ & -> & _).
    { unfold in_shape in *. lia. }
    rewrite fallback_changed, Hpos. unfold zero_at. naive_solver.
  - intros i j Hij. destruct (Hc i j) as (_ & _ & ->).
    { unfold in_shape in *. lia. }
    rewrite fallback_changed, Hpos. unfold zero_at. naive_solver.
Qed.

Lemma fill_missing_factors_positions_witness :
  complete_for ["Business"] example_growth_matrices
  ∧ ∃ filled missing,
      fill_missing_factors ["Business"] example_growth_matrices
      = Ok (filled, missing)
      ∧ ∃ mf, lookup2 missing "Business" "F" = Some mf
              ∧ ((0, 0)%nat ∈ mf ↔ zero_at (np_scalar (num 0)) (0, 0)%nat).
Proof.
  split; [exact complete_for_example|].
  destruct (fill_missing_factors_positions ["Business"]
              example_growth_matrices complete_for_example)
    as (filled & missing & E & H).
  exists filled, missing. split; [exact E|].
  destruct (H "Business" (np_scalar (num 0)) (np_scalar (num 5))
              (np_scalar (num 0)))
    as (ff & fr & fs & mf & mr & ms & _ & HF & _ & _ & Hmf & _);
    [by_compute | by repeat split |].
  exists mf. split; [exact HF | apply Hmf].
Defined.

(** ** [fill_missing_factors] applied to its own result *)

Lemma fallback_id own first second :
  eq_zero own = false → fallback own first second = own.
Proof. unfold fallback. by intros ->. Qed.

(** X6: filling is idempotent: [fill_missing_factors] applied to the filled
    matrices it has returned leaves every cell as it is and reports no
    missing position. *)
Theorem fill_missing_factors_idempotent ps gm filled missing :
  complete_for ps gm →
  fill_missing_factors ps gm = Ok (filled, missing) →
  ∃ filled' missing',
    fill_missing_factors ps filled = Ok (filled', missing')
    ∧ ∀ p t, p ∈ ps → t ∈ ["F"; "R"; "S"] →
        lookup2 missing' p t = Some []
        ∧ ∃ m m', lookup2 filled p t = Some m
                  ∧ lookup2 filled' p t = Some m' ∧ same_cells m' m.
Proof.
  intros Hgm E.
  destruct (fill_missing_factors_cells ps gm Hgm)
    as (filled0 & missing0 & E0 & Hcells).
  assert (filled0 = filled) as -> by congruence. clear E0 missing0.
  assert (∀ p, p ∈ ps →
    ∃ ff fr fs, has_FRS filled p ff fr fs
      ∧ shape fr = shape ff ∧ shape fs = shape ff
      ∧ ∀ m, m ∈ [ff; fr; fs] →
          ∀ i j, in_shape m i j → eq_zero (cell m i j) = false) as Hfilled.
  { intros p Hp. destruct (Hgm p Hp) as (f & r & s & HFRS & Hr & Hs).
    destruct (Hcells p f r s Hp HFRS)
      as (ff & fr & fs & Hres & Hsf & Hsr & Hss & _ & _ & Hc).
    exists ff, fr, fs. split; [done|].
    split; [congruence|]. split; [congruence|].
    intros m Hm i j Hij.
    assert (in_shape f i j) as Hij'.
    { unfold in_shape, shape in *.
      repeat (apply elem_of_cons in Hm as [->|Hm]);
        [| | |by apply elem_of_nil in Hm]; simplify_eq; lia. }
    destruct (Hc i j Hij') as (Hcf & Hcr & Hcs).
    repeat (apply elem_of_cons in Hm as [->|Hm]);
      [| | |by apply elem_of_nil in Hm].
    - rewrite Hcf. apply fallback_nonzero.
    - rewrite Hcr. apply fallback_nonzero.
    - rewrite Hcs. apply fallback_nonzero. }
  assert (complete_for ps filled) as Hcomplete.
  { intros p Hp. destruct (Hfilled p Hp) as (ff & fr & fs & H & ? & ? & _).
    by exists ff, fr, fs. }
  destruct (fill_missing_factors_cells ps filled Hcomplete)
    as (filled' & missing' & E' & Hcells').
  exists filled', missing'. split; [done|].
  intros p t Hp Ht.
  destruct (Hfilled p Hp) as (ff & fr & fs & HFRS & Hsr & Hss & Hnz).
  destruct (Hcells' p ff fr fs Hp HFRS)
    as (ff' & fr' & fs' & (HF' & HR' & HS') & Hsf' & Hsr' & Hss' & _ & _
        & Hc').
  destruct (fill_loop_missing filled ps (empty_dicts ps, empty_dicts ps)
              (filled', missing')) as (_ & _ & Hm); [|exact E'|].
  { intros q Hq. simpl. rewrite lookup_empty_dicts. by rewrite decide_True. }
  destruct (Hm p ff fr fs Hp HFRS) as (HmF & HmR & HmS).
  simpl in HmF, HmR, HmS.
  assert (∀ m, m ∈ [ff; fr; fs] → np_argwhere (np_eq_zero m) = []) as Hnil.
  { intros m Hin. apply np_argwhere_nil. intros i j Hij. simpl.
    by apply (Hnz m Hin). }
  destruct HFRS as (HF & HR & HS).
  injection Hsr as Hr1 Hr2. injection Hss as Hs1 Hs2.
  repeat (apply elem_of_cons in Ht as [->|Ht]);
    [| | |by apply elem_of_nil in Ht].
  - rewrite HmF, Hnil by repeat constructor. split; [done|].
    exists ff, ff'. split; [done|]. split; [done|]. split; [done|].
    intros i j Hij. destruct (Hc' i j Hij) as (-> & _ & _).
    apply fallback_id, (Hnz ff); [repeat constructor | done].
  - rewrite HmR, Hnil by repeat constructor. split; [done|].
    exists fr, fr'. split; [done|]. split; [done|].
    split; [unfold shape in *; congruence|].
    intros i j Hij. destruct (Hc' i j) as (_ & -> & _).
    { unfold in_shape in *. lia. }
    apply fallback_id, (Hnz fr); [repeat constructor | done].
  - rewrite HmS, Hnil by repeat constructor. split; [done|].
    exists fs, fs'. split; [done|]. split; [done|].
    split; [unfold shape in *; congruence|].
    intros i j Hij. destruct (Hc' i j) as (_ & _ & ->).
    { unfold in_shape in *. lia. }
    apply fallback_id, (Hnz fs); [repeat constructor | done].
Qed.

Lemma fill_missing_factors_idempotent_witness :
  complete_for ["Business"] example_growth_matrices
  ∧ ∃ filled missing filled' missing',
      fill_missing_factors ["Business"] example_growth_matrices
      = Ok (filled, missing)
      ∧ fill_missing_factors ["Business"] filled = Ok (filled', missing')
      ∧ lookup2 missing' "Business" "F" = Some [].
Proof.
  split; [exact complete_for_example|].
  destruct (fill_missing_factors_spec ["Business"] example_growth_matrices
              complete_for_example) as (filled & missing & E & _).
  destruct (fill_missing_factors_idempotent ["Business"]
              example_growth_matrices filled missing complete_for_example E)
    as (filled' & missing' & E' & H).
  exists filled, missing, filled', missing'.
  split; [exact E|]. split; [exact E'|].
  apply (H "Business" "F"); by_compute.
Defined.

(** ** [fill_missing_factors]: errors *)

Lemma broadcast_dim_Ok m n k :
  broadcast_dim m n = Ok k →
  broadcastable m n ∧ k = (if decide (m = 1%nat) then n else m).
Proof.
  unfold broadcast_dim, broadcastable.
  repeat case_decide; intros [= <-] || intros [=]; split; auto; lia.
Qed.

Lemma np_where_Ok {A} (c : ndarray bool) (x y a : ndarray A) :
  np_where c x y = Ok a →
  ∃ r1 c1, broadcast_dim (nrows c) (nrows x) = Ok r1
    ∧ broadcast_dim r1 (nrows y) = Ok (nrows a)
    ∧ broadcast_dim (ncols c) (ncols x) = Ok c1
    ∧ broadcast_dim c1 (ncols y) = Ok (ncols a).
Proof.
  unfold np_where. intros H.
  apply result_bind_Ok in H as (r1 & Hr1 & H).
  apply result_bind_Ok in H as (r & Hr & H).
  apply result_bind_Ok in H as (c1 & Hc1 & H).
  apply result_bind_Ok in H as (k & Hk & H).
  injection H as <-. by exists r1, c1.
Qed.

Lemma broadcastable_three (o f s a1 : nat) :
  broadcastable o f →
  a1 = (if decide ((if decide (o = 1%nat) then f else o) = 1%nat)
        then o else if decide (o = 1%nat) then f else o) →
  broadcastable a1 s →
  broadcastable o f ∧ broadcastable o s ∧ broadcastable f s.
Proof.
  unfold broadcastable. intros H1 -> H2.
  destruct (decide (o = 1%nat)); destruct (decide (f = 1%nat));
    repeat case_decide; lia.
Qed.

Lemma fill_from_Ok own first second a :
  fill_from own first second = Ok a →
  broadcastable_shapes own first ∧ broadcastable_shapes own second
  ∧ broadcastable_shapes first second.
Proof.
  unfold fill_from. intros H.
  apply result_bind_Ok in H as (a1 & H1 & H).
  apply result_bind_Ok in H as (a2 & H2 & H). clear H.
  apply np_where_Ok in H1 as (r1 & c1 & Hr1 & Hr1' & Hc1 & Hc1').
  apply np_where_Ok in H2 as (r2 & c2 & Hr2 & Hr2' & Hc2 & Hc2').
  simpl in *.
  apply broadcast_dim_Ok in Hr1 as [Br1 ->], Hr1' as [Br1' Er1],
    Hc1 as [Bc1 ->], Hc1' as [Bc1' Ec1], Hr2 as [Br2 ->], Hc2 as [Bc2 ->].
  clear Hr2' Hc2'.
  destruct (broadcastable_three _ _ _ _ Br1 Er1 Br2) as (? & ? & ?).
  destruct (broadcastable_three _ _ _ _ Bc1 Ec1 Bc2) as (? & ? & ?).
  by repeat split.
Qed.

Lemma fill_purpose_raises_shapes gm p acc f r s :
  has_FRS gm p f r s →
  ¬ (broadcastable_shapes f r ∧ broadcastable_shapes f s
     ∧ broadcastable_shapes r s) →
  raises (fill_purpose gm p acc).
Proof.
  intros HFRS Hno.
  destruct (result_cases (fill_purpose gm p acc)) as [[res E]|]; [|done].
  destruct Hno. destruct acc as [filled missing]. unfold fill_purpose in E.
  apply has_FRS_getitems in HFRS as (e & He & HF & HR & HS).
  apply getitem_Ok in He, HF, HR, HS.
  rewrite He in E. simpl in E. rewrite HF in E. simpl in E.
  rewrite HR in E. simpl in E. rewrite HS in E. simpl in E.
  apply result_bind_Ok in E as (ff & Eff & _).
  by apply fill_from_Ok in Eff.
Qed.

(** X7: [fill_missing_factors] raises when the three matrices of a purpose
    of the list cannot be broadcast against each other: when two of them
    differ in their number of rows, or of columns, and neither number
    is 1. *)
Theorem fill_missing_factors_raises_shapes ps gm p f r s :
  p ∈ ps → has_FRS gm p f r s →
  ¬ (broadcastable_shapes f r ∧ broadcastable_shapes f s
     ∧ broadcastable_shapes r s) →
  raises (fill_missing_factors ps gm).
Proof.
  intros Hin HFRS Hno. unfold fill_missing_factors.
  generalize (empty_dicts ps : growth_dict, empty_dicts ps : missing_dict).
  induction ps as [|q ps IH]; intros acc; [by apply elem_of_nil in Hin|].
  simpl. destruct (result_cases (fill_purpose gm q acc)) as [[acc' Eq]|Hr];
    [|by apply raises_bind_l].
  apply elem_of_cons in Hin as [->|Hin].
  - by apply raises_bind_l, (fill_purpose_raises_shapes gm q acc f r s).
  - rewrite Eq. simpl. by apply IH.
Qed.

Lemma fill_missing_factors_raises_shapes_witness :
  "Business" ∈ ["Business"]
  ∧ has_FRS ragged_growth_matrices "Business"
      (NDArray 2 2 (λ _ _, num 0)) (NDArray 3 3 (λ _ _, num 5))
      (NDArray 2 2 (λ _ _, num 0))
  ∧ raises (fill_missing_factors ["Business"] ragged_growth_matrices).
Proof.
  assert ("Business" ∈ ["Business"]) as H1 by by_compute.
  assert (has_FRS ragged_growth_matrices "Business"
            (NDArray 2 2 (λ _ _, num 0)) (NDArray 3 3 (λ _ _, num 5))
            (NDArray 2 2 (λ _ _, num 0))) as H2 by (by repeat split).
  split; [exact H1|]. split; [exact H2|].
  apply (fill_missing_factors_raises_shapes _ _ _ _ _ _ H1 H2).
  unfold broadcastable_shapes, broadcastable. simpl. lia.
Defined.

(** X8: [fill_missing_factors] raises when a purpose of the list has no
    entry in the growth-matrix dict; in particular on the result of
    [prepare_growth_matrices] when the list names a purpose that the
    demand segments do not hold. *)
Theorem fill_missing_factors_raises_purpose ps p :
  p ∈ ps →
  (∀ gm, gm !! p = None → raises (fill_missing_factors ps gm))
  ∧ (∀ segs df lk, p ∉ segs →
       raises (fill_missing_factors ps
                 (prepare_growth_matrices segs df lk))).
Proof.
  intros Hp. split.
  - intros gm Hnone. unfold fill_missing_factors.
    apply (fill_loop_raises_lookup2 _ ps _ p Hp).
    left. unfold lookup2. by rewrite Hnone.
  - intros segs df lk Hno. unfold fill_missing_factors.
    apply (fill_loop_raises_lookup2 _ ps _ p Hp).
    left. rewrite prepare_growth_matrices_lookup.
    by rewrite decide_False by naive_solver.
Qed.

Lemma fill_missing_factors_raises_purpose_witness :
  "Leisure" ∈ ["Leisure"]
  ∧ "Leisure" ∉ ["Business"]
  ∧ raises (fill_missing_factors ["Leisure"]
              (prepare_growth_matrices ["Business"] example_factors
                 example_stations)).
Proof.
  assert ("Leisure" ∈ ["Leisure"]) as H1 by by_compute.
  assert ("Leisure" ∉ ["Business"]) as H2 by by_compute.
  split; [exact H1|]. split; [exact H2|].
  exact (proj2 (fill_missing_factors_raises_purpose ["Leisure"] "Leisure" H1)
           ["Business"] example_factors example_stations H2).
Defined.

(** ** [prepare_growth_matrices] followed by [fill_missing_factors] *)






(** ** Round trips between the long and the wide format *)

Lemma fmap_bind {A B C} (f : B → C) (g : A → list B) (l : list A) :
  f <$> (l ≫= g) = l ≫= (λ x, f <$> g x).
Proof.
  induction l as [|x l IH]; [done|]. by rewrite !bind_cons, fmap_app, IH.
Qed.

Lemma elem_of_wide_mx_2_long_mx m r :
  r ∈ wide_mx_2_long_mx m
  ↔ ∃ a b, in_shape m a b ∧ r = long_row_at m a b.
Proof.
  unfold wide_mx_2_long_mx, in_shape. rewrite list_elem_of_bind. split.
  - intros (b & (a & -> & Ha)%list_elem_of_fmap & Hb).
    apply elem_of_seq in Ha, Hb. exists a, b. split; [lia | done].
  - intros (a & b & [Ha Hb] & ->). exists b.
    split; [|apply elem_of_seq; lia].
    apply list_elem_of_fmap. exists a. split; [done|]. apply elem_of_seq. lia.
Qed.

Lemma NoDup_ids_wide_mx_2_long_mx m : NoDup (ids <$> wide_mx_2_long_mx m).
Proof.
  unfold wide_mx_2_long_mx. rewrite fmap_bind. apply NoDup_bind.
  - intros b1 b2 k _ _ H1 H2.
    rewrite <- list_fmap_compose in H1, H2.
    apply list_elem_of_fmap in H1 as (a1 & -> & _).
    apply list_elem_of_fmap in H2 as (a2 & [= _ ?] & _). lia.
  - intros b _. rewrite <- list_fmap_compose. apply NoDup_fmap_2.
    + intros a1 a2 [= ?]. lia.
    + apply NoDup_seq.
  - apply NoDup_seq.
Qed.

Lemma nanmean_singleton_notna x : notna x → nanmean [x] = x.
Proof.
  destruct x as [| | |q]; intros Hx; [done| | |].
  - by_compute.
  - by_compute.
  - by apply nanmean_singleton.
Qed.

(** X10: converting a wide matrix that has at least one row and one column
    and holds no NaN to the long format and back returns the matrix: the
    same shape and the same cells. *)
Theorem wide_long_wide_round_trip (mx_np : ndarray float) :
  (0 < nrows mx_np)%nat → (0 < ncols mx_np)%nat →
  (∀ a b, in_shape mx_np a b → notna (cell mx_np a b)) →
  shape (long_mx_2_wide_mx (wide_mx_2_long_mx mx_np)) = shape mx_np
  ∧ ∀ a b, in_shape mx_np a b →
      cell (long_mx_2_wide_mx (wide_mx_2_long_mx mx_np)) a b
      = cell mx_np a b.
Proof.
  intros Hrows Hcols Hna.
  set (mx := wide_mx_2_long_mx mx_np).
  assert (∀ a b, in_shape mx_np a b →
            long_row_at mx_np a b ∈ pivot_groups mx) as Hgroups.
  { intros a b Hab. apply elem_of_pivot_groups.
    assert (long_row_at mx_np a b ∈ mx) as Hin.
    { apply elem_of_wide_mx_2_long_mx. by exists a, b. }
    split; [by apply Hna|].
    exists (Z.of_nat a + 1, Z.of_nat b + 1)%Z.
    split; [by exists (long_row_at mx_np a b)|].
    unfold long_row_at. simpl. f_equal.
    change (group_values _ (keyed mx))
      with (values_at mx (Z.of_nat a + 1) (Z.of_nat b + 1)).
    rewrite (values_at_unique mx _ _ (long_row_at mx_np a b));
      [|apply NoDup_ids_wide_mx_2_long_mx|done|done].
    symmetry. by apply nanmean_singleton_notna, Hna. }
  assert (∀ g, g ∈ pivot_groups mx →
            ∃ a b, in_shape mx_np a b
              ∧ on_pair (Z.of_nat a + 1, Z.of_nat b + 1)%Z g) as Hinv.
  { intros g (_ & k & (r & Hr & Hon) & ->)%elem_of_pivot_groups.
    apply elem_of_wide_mx_2_long_mx in Hr as (a & b & Hab & ->).
    exists a, b. split; [done|]. destruct Hon as [[= <-] [= <-]]. done. }
  assert (pivot_index (pivot_groups mx)
          = seqZ 1 (Z.of_nat (nrows mx_np))) as Hindex.
  { unfold pivot_index. apply sorted_range; [apply NoDup_unique|].
    intros i. rewrite elem_of_unique, list_elem_of_omap. split.
    - intros (g & Hg & Hi).
      destruct (Hinv g Hg) as (a & b & [Ha Hb] & [Hi' _]).
      simpl in *. simplify_eq. lia.
    - intros Hi. exists (long_row_at mx_np (Z.to_nat (i - 1)) 0).
      split; [apply Hgroups; unfold in_shape; lia|].
      simpl. f_equal. lia. }
  assert (pivot_columns (pivot_groups mx)
          = seqZ 1 (Z.of_nat (ncols mx_np))) as Hcolumns.
  { unfold pivot_columns. apply sorted_range; [apply NoDup_unique|].
    intros j. rewrite elem_of_unique, list_elem_of_omap. split.
    - intros (g & Hg & Hj).
      destruct (Hinv g Hg) as (a & b & [Ha Hb] & [_ Hj']).
      simpl in *. simplify_eq. lia.
    - intros Hj. exists (long_row_at mx_np 0 (Z.to_nat (j - 1))).
      split; [apply Hgroups; unfold in_shape; lia|].
      simpl. f_equal. lia. }
  split.
  { unfold shape, long_mx_2_wide_mx. simpl. fold mx.
    rewrite Hindex, Hcolumns, !length_seqZ. f_equal; lia. }
  intros a b [Ha Hb].
  destruct (long_mx_2_wide_mx_cell mx a b (Z.of_nat a + 1) (Z.of_nat b + 1))
    as [_ ->].
  { rewrite Hindex, lookup_seqZ. lia. }
  { rewrite Hcolumns, lookup_seqZ. lia. }
  apply pivot_cell_elem; [apply NoDup_ids_pivot_groups|].
  by apply (Hgroups a b).
Qed.

Lemma wide_long_wide_round_trip_witness :
  (0 < nrows example_wide)%nat ∧ (0 < ncols example_wide)%nat
  ∧ (∀ a b, in_shape example_wide a b → notna (cell example_wide a b))
  ∧ shape (long_mx_2_wide_mx (wide_mx_2_long_mx example_wide)) = (1, 2)%nat.
Proof.
  assert (0 < nrows example_wide)%nat as H1 by (simpl; lia).
  assert (0 < ncols example_wide)%nat as H2 by (simpl; lia).
  assert (∀ a b, in_shape example_wide a b → notna (cell example_wide a b))
    as H3 by done.
  split; [exact H1|]. split; [exact H2|]. split; [exact H3|].
  exact (proj1 (wide_long_wide_round_trip example_wide H1 H2 H3)).
Defined.

Lemma full_grid_within zones mx :
  exactly_full_grid zones mx → within_grid zones mx.
Proof.
  intros Hfull r Hr.
  assert (ids r ∈ pair_ids <$> od_grid zones) as H.
  { rewrite <- Hfull. by apply list_elem_of_fmap_2. }
  apply list_elem_of_fmap in H as (p & Hp & Hin).
  exists p. split; [done|]. by apply on_pair_ids.
Qed.

Lemma full_grid_covers zones mx :
  exactly_full_grid zones mx → covers_grid zones mx.
Proof.
  intros Hfull p Hp.
  assert (pair_ids p ∈ ids <$> mx) as H.
  { rewrite Hfull. by apply list_elem_of_fmap_2. }
  apply list_elem_of_fmap in H as (r & Hr & Hin).
  exists r. split; [done|]. by apply on_pair_ids.
Qed.

Lemma full_grid_NoDup zones mx :
  exactly_full_grid zones mx → NoDup (ids <$> mx).
Proof.
  intros Hfull. rewrite Hfull. apply NoDup_fmap_2; [apply _|].
  apply NoDup_od_grid.
Qed.

(** X11: converting a long matrix that holds exactly one row for every
    pair of [1..n] x [1..n], none with a NaN value, to the wide format and
    back returns its rows. *)
Theorem long_wide_long_round_trip mx zones :
  (0 < zones)%Z →
  exactly_full_grid zones mx →
  (∀ r, r ∈ mx → notna (val r)) →
  shape (long_mx_2_wide_mx mx) = (Z.to_nat zones, Z.to_nat zones)
  ∧ wide_mx_2_long_mx (long_mx_2_wide_mx mx) ≡ₚ mx.
Proof.
  intros Hzones Hfull Hna.
  pose proof (full_grid_within _ _ Hfull) as Hin.
  pose proof (full_grid_covers _ _ Hfull) as Hcov.
  pose proof (full_grid_NoDup _ _ Hfull) as Hnd.
  assert (∀ r i j, r ∈ mx → on_pair (i, j) r →
            nanmean (values_at mx i j) = val r) as Hval.
  { intros r i j Hr Hon.
    rewrite (values_at_unique mx i j r) by done.
    by apply nanmean_singleton_notna, Hna. }
  destruct (long_mx_2_wide_mx_full_grid mx zones Hin Hcov) as [Hshape Hcell].
  { intros [i j] Hp. destruct (Hcov (i, j) Hp) as (r & Hr & Hon).
    simpl. rewrite (Hval r i j Hr Hon). by apply Hna. }
  split; [done|].
  assert (nrows (long_mx_2_wide_mx mx) = Z.to_nat zones) as Hrows
    by exact (f_equal fst Hshape).
  assert (ncols (long_mx_2_wide_mx mx) = Z.to_nat zones) as Hcols
    by exact (f_equal snd Hshape).
  apply NoDup_Permutation.
  - eapply NoDup_fmap_1, NoDup_ids_wide_mx_2_long_mx.
  - by eapply NoDup_fmap_1.
  - intros r. rewrite elem_of_wide_mx_2_long_mx. split.
    + intros (a & b & [Ha Hb] & ->). unfold long_row_at.
      rewrite Hcell by lia.
      destruct (Hcov (Z.of_nat a + 1, Z.of_nat b + 1)%Z)
        as (r & Hr & Hon); [apply elem_of_od_grid; lia|].
      rewrite (Hval r _ _ Hr Hon).
      destruct Hon as [Hi Hj]. simpl in Hi, Hj. rewrite <- Hi, <- Hj.
      by rewrite long_row_eta.
    + intros Hr. destruct (Hin r Hr) as ([i j] & Hp & Hon).
      apply elem_of_od_grid in Hp.
      exists (Z.to_nat (i - 1)), (Z.to_nat (j - 1)).
      split; [unfold in_shape; lia|]. unfold long_row_at.
      rewrite Hcell by lia.
      replace (Z.of_nat (Z.to_nat (i - 1)) + 1)%Z with i by lia.
      replace (Z.of_nat (Z.to_nat (j - 1)) + 1)%Z with j by lia.
      rewrite (Hval r i j Hr Hon).
      destruct Hon as [Hi Hj]. simpl in Hi, Hj. rewrite <- Hi, <- Hj.
      by rewrite long_row_eta.
Qed.

Lemma long_wide_long_round_trip_witness :
  (0 < 2)%Z
  ∧ exactly_full_grid 2 example_long
  ∧ (∀ r, r ∈ example_long → notna (val r))
  ∧ wide_mx_2_long_mx (long_mx_2_wide_mx example_long) ≡ₚ example_long.
Proof.
  assert (0 < 2)%Z as H1 by lia.
  assert (exactly_full_grid 2 example_long) as H2.
  { unfold exactly_full_grid. reflexivity. }
  assert (∀ r, r ∈ example_long → notna (val r)) as H3.
  { apply Forall_forall. by_compute. }
  split; [exact H1|]. split; [exact H2|]. split; [exact H3|].
  exact (proj2 (long_wide_long_round_trip example_long 2 H1 H2 H3)).
Defined.

(** ** The values of one pair after [expand_matrix] *)





(** ** The cells of the matrices of [prepare_growth_matrices] *)





(** ** [zonal_from_to_stations_demand]: the split probabilities that count *)

(** X13: the split probabilities of other user classes have no influence:
    [zonal_from_to_stations_demand] returns the same matrix and the same
    lookup when the rows of [irsj_props] with another userclass are
    removed. *)
Theorem zonal_userclass_only demand_mx irsj_props S uc to_home :
  zonal_from_to_stations_demand demand_mx
    (filter (λ p, irsj_userclass p = Some uc) irsj_props) S uc to_home
  = zonal_from_to_stations_demand demand_mx irsj_props S uc to_home.
Proof.
  assert (∀ D, merge_irsj D uc
                 (filter (λ p, irsj_userclass p = Some uc) irsj_props)
               = merge_irsj D uc irsj_props) as Hmerge.
  { intros D. unfold merge_irsj. apply bind_ext_in. intros d _.
    rewrite list_filter_filter.
    erewrite (list_filter_iff _ (irsj_matches uc d)); [done|].
    intros p. unfold irsj_matches. naive_solver. }
  unfold zonal_from_to_stations_demand, zonal_merged.
  by rewrite Hmerge.
Qed.

(** ** [zonal_from_to_stations_demand]: the cells of the station matrix *)










(** ** Order on exact rationals *)








(** ** [zonal_from_to_stations_demand]: the shares of a station pair *)

Lemma bind_singleton_fmap {A B} (h : A → B) (l : list A) :
  l ≫= (λ x, [h x]) = h <$> l.
Proof. induction l as [|x l IH]; [done|]. by rewrite bind_cons, IH. Qed.

Lemma merge_totals_groupby mx :
  merge_totals mx (groupby_sum (stn_long <$> mx))
  = (λ r, (r, pair_total (stn_long <$> mx) (stn_long r))) <$> mx.
Proof.
  set (X := stn_long <$> mx). set (G := groupby_sum X).
  assert (NoDup (ids <$> G)) as Hnd by apply NoDup_ids_groupby_agg.
  unfold merge_totals. rewrite <- bind_singleton_fmap.
  apply bind_ext_in. intros r Hr.
  erewrite (list_filter_iff _ (λ g, ids g = ids (stn_long r))).
  2:{ intros g. unfold ids. simpl.
      split; [by intros [-> ->] | by intros [= -> ->]]. }
  unfold pair_total. simpl.
  destruct (zonal_from_stn_zone_id r) as [a|] eqn:Ea;
    destruct (zonal_to_stn_zone_id r) as [b|] eqn:Eb.
  - set (g0 := LongRow (Some a) (Some b) (nansum (values_at X a b))).
    assert (g0 ∈ G) as Hg0.
    { apply elem_of_groupby_sum. exists (a, b). split; [|done].
      exists (stn_long r). split; [by apply list_elem_of_fmap_2|].
      unfold on_pair. simpl. by rewrite Ea, Eb. }
    assert (ids (stn_long r) = ids g0) as ->.
    { unfold ids. simpl. by rewrite Ea, Eb. }
    by rewrite (filter_key_NoDup ids G g0 Hnd Hg0).
  - rewrite (proj2 (filter_nil_Forall _ G)); [done|].
    apply Forall_forall. intros g (k & _ & ->)%elem_of_groupby_sum.
    unfold ids. simpl. rewrite Ea, Eb. congruence.
  - rewrite (proj2 (filter_nil_Forall _ G)); [done|].
    apply Forall_forall. intros g (k & _ & ->)%elem_of_groupby_sum.
    unfold ids. simpl. rewrite Ea, Eb. congruence.
  - rewrite (proj2 (filter_nil_Forall _ G)); [done|].
    apply Forall_forall. intros g (k & _ & ->)%elem_of_groupby_sum.
    unfold ids. simpl. rewrite Ea, Eb. congruence.
Qed.






(** ** [fill_missing_factors]: the keys of the two results *)

Lemma setitem2_chain_is_Some {V} (d : gmap string (gmap string V)) p
    (vf vr vs : V) q t :
  is_Some (d !! p) →
  is_Some (lookup2 d q t) ∨ (q = p ∧ t ∈ ["F"; "R"; "S"]) →
  is_Some (lookup2
             (setitem2 (setitem2 (setitem2 d p "F" vf) p "R" vr) p "S" vs)
             q t).
Proof.
  intros Hp H.
  rewrite !lookup2_setitem2 by (by rewrite ?lookup_setitem2_is_Some).
  repeat case_decide; try (by eexists).
  destruct H as [H|[-> Ht]]; [done|].
  repeat (apply elem_of_cons in Ht as [->|Ht]);
    [| | |by apply elem_of_nil in Ht]; naive_solver.
Qed.

Lemma fill_loop_is_Some gm ps : ∀ acc res,
  (∀ p, p ∈ ps → is_Some (acc.1 !! p) ∧ is_Some (acc.2 !! p)) →
  fill_loop gm ps acc = Ok res →
  ∀ p t, p ∈ ps ∧ t ∈ ["F"; "R"; "S"]
         ∨ (is_Some (lookup2 acc.1 p t) ∧ is_Some (lookup2 acc.2 p t)) →
    is_Some (lookup2 res.1 p t) ∧ is_Some (lookup2 res.2 p t).
Proof.
  induction ps as [|q ps IH]; intros acc res Hdom H p t Hpt.
  { injection H as <-. destruct Hpt as [[Hp _]|?]; [|done].
    by apply elem_of_nil in Hp. }
  simpl in H. apply result_bind_Ok in H as (acc' & Hstep & H).
  destruct (Hdom q) as [Hq1 Hq2]; [by left|].
  pose proof Hstep as Hstep'.
  apply fill_purpose_inv in Hstep as (ff & fr & fs & E1).
  apply fill_purpose_inv_missing in Hstep' as (f & r & s & _ & E2).
  apply (IH acc' res); [|done|].
  { intros p' Hp'. rewrite E1, E2, !lookup_setitem2_is_Some.
    apply Hdom. by right. }
  destruct (decide (p ∈ ps ∧ t ∈ ["F"; "R"; "S"])) as [|Hno]; [by left|].
  right. rewrite E1, E2.
  split; apply setitem2_chain_is_Some; try done.
  - destruct Hpt as [[Hp Ht]|[? ?]]; [|by left].
    apply elem_of_cons in Hp as [->|Hp]; [by right|]. by destruct Hno.
  - destruct Hpt as [[Hp Ht]|[? ?]]; [|by left].
    apply elem_of_cons in Hp as [->|Hp]; [by right|]. by destruct Hno.
Qed.

Lemma fill_loop_keys_missing gm ps : ∀ acc res,
  fill_loop gm ps acc = Ok res →
  ∀ q t m, lookup2 res.2 q t = Some m →
    lookup2 acc.2 q t = Some m ∨ (q ∈ ps ∧ t ∈ ["F"; "R"; "S"]).
Proof.
  induction ps as [|p ps IH]; intros acc res H q t m Hm.
  { injection H as <-. by left. }
  simpl in H. apply result_bind_Ok in H as (acc' & Hstep & H).
  destruct (IH _ _ H _ _ _ Hm) as [Hacc'|[? ?]]; [|right; set_solver].
  apply fill_purpose_inv_missing in Hstep as (f & r & s & _ & E).
  rewrite E in Hacc'.
  apply lookup2_setitem2_Some in Hacc' as [[-> <-]|Hacc'];
    [right; set_solver|].
  apply lookup2_setitem2_Some in Hacc' as [[-> <-]|Hacc'];
    [right; set_solver|].
  apply lookup2_setitem2_Some in Hacc' as [[-> <-]|Hacc'];
    [right; set_solver|].
  by left.
Qed.

(** X17: when [fill_missing_factors] returns, both dicts it returns hold
    exactly the purposes of the list, each with exactly the ticket types
    "F", "R", "S": further purposes and further ticket types of the input
    dict are not carried over. *)
Theorem fill_missing_factors_keys_exact ps gm filled missing :
  fill_missing_factors ps gm = Ok (filled, missing) →
  ∀ p t,
    (is_Some (lookup2 filled p t) ↔ p ∈ ps ∧ t ∈ ["F"; "R"; "S"])
    ∧ (is_Some (lookup2 missing p t) ↔ p ∈ ps ∧ t ∈ ["F"; "R"; "S"]).
Proof.
  unfold fill_missing_factors. intros E p t.
  assert (p ∈ ps ∧ t ∈ ["F"; "R"; "S"] →
          is_Some (lookup2 filled p t) ∧ is_Some (lookup2 missing p t))
    as Hsome.
  { intros Hpt.
    apply (fill_loop_is_Some gm ps (empty_dicts ps, empty_dicts ps)
             (filled, missing)); [|exact E|by left].
    intros q Hq. simpl. rewrite !lookup_empty_dicts.
    rewrite !decide_True by done. split; by eexists. }
  split; (split; [|intros Hpt; by apply Hsome]).
  - intros [m Hm].
    destruct (fill_loop_keys _ _ _ _ E _ _ _ Hm) as [Hacc|?]; [|done].
    simpl in Hacc. by rewrite lookup2_empty_dicts in Hacc.
  - intros [m Hm].
    destruct (fill_loop_keys_missing _ _ _ _ E _ _ _ Hm) as [Hacc|?]; [|done].
    simpl in Hacc. by rewrite lookup2_empty_dicts in Hacc.
Qed.

Lemma fill_missing_factors_keys_exact_witness :
  ∃ filled missing,
    fill_missing_factors ["Business"] wider_growth_matrices
    = Ok (filled, missing)
    ∧ lookup2 filled "Leisure" "F" = None
    ∧ lookup2 filled "Business" "A" = None.
Proof.
  assert (complete_for ["Business"] wider_growth_matrices) as Hc.
  { intros p ->%list_elem_of_singleton.
    by exists (np_scalar (num 0)), (np_scalar (num 5)), (np_scalar (num 0)). }
  destruct (fill_missing_factors_spec ["Business"] wider_growth_matrices Hc)
    as (filled & missing & E & _).
  exists filled, missing. split; [exact E|].
  pose proof (fill_missing_factors_keys_exact _ _ _ _ E) as H.
  split.
  - apply eq_None_not_Some. intros Hs.
    apply (proj1 (H "Leisure" "F")) in Hs as [Hp _].
    by apply list_elem_of_singleton in Hp.
  - apply eq_None_not_Some. intros Hs.
    apply (proj1 (H "Business" "A")) in Hs as [_ Ht].
    revert Ht. by_compute.
Defined.

(** ** [prepare_growth_matrices] on a table filtered by [filter_stations] *)

(** X18: applying [filter_stations] to the growth-factor records before
    [prepare_growth_matrices] (the call that the source leaves commented
    out) changes no matrix: it only removes the entries of the ticket types
    that occur in no record between two stations of the lookup. *)
Theorem prepare_growth_matrices_filtered (segs : list string)
    (df : list factor_row) (lk : list station) p t :
  lookup2 (prepare_growth_matrices segs (filter_stations lk df) lk) p t
  = if decide (t ∈ TicketType <$> filter_stations lk df)
    then lookup2 (prepare_growth_matrices segs df lk) p t
    else None.
Proof.
  rewrite !prepare_growth_matrices_lookup, merge_to_stations_filtered.
  destruct (decide (t ∈ TicketType <$> filter_stations lk df)) as [Ht|Ht].
  - assert (t ∈ TicketType <$> df) as Ht'.
    { apply list_elem_of_fmap in Ht as (r & -> & [_ Hr]%list_elem_of_filter).
      by apply list_elem_of_fmap_2. }
    destruct (decide (p ∈ segs)) as [Hp|Hp].
    + by rewrite !decide_True by done.
    + by rewrite !decide_False by naive_solver.
  - by rewrite decide_False by naive_solver.
Qed.

(** ** [long_mx_2_wide_mx]: rows that do not count *)

Lemma StronglySorted_filter {A} (R : relation A) (P : A → Prop)
    `{!∀ x, Decision (P x)} (l : list A) :
  StronglySorted R l → StronglySorted R (filter P l).
Proof.
  induction 1 as [|x l Hl IH Hx]; [constructor|].
  rewrite filter_cons. destruct (decide (P x)); [|done].
  constructor; [done|]. apply Forall_forall.
  intros y [_ Hy]%list_elem_of_filter. rewrite Forall_forall in Hx. auto.
Qed.

Lemma nanmean_filter_notna l : nanmean (filter notna l) = nanmean l.
Proof.
  unfold nanmean. cbv zeta. by rewrite list_filter_filter_l by done.
Qed.

Lemma values_at_present mx i j :
  values_at (filter present mx) i j = filter notna (values_at mx i j).
Proof.
  rewrite !values_at_filter, filter_fmap, !list_filter_filter.
  f_equal. apply list_filter_iff. intros r. unfold present, has_ids, on_pair.
  simpl. split.
  - intros [[Hi Hj] [_ Hna]]. done.
  - intros [Hna [Hi Hj]]. rewrite Hi, Hj. repeat split; by eauto.
Qed.

Lemma notna_nanmean_present mx i j :
  notna (nanmean (values_at mx i j)) →
  ∃ r, r ∈ filter present mx ∧ on_pair (i, j) r.
Proof.
  intros Hna. rewrite <- nanmean_filter_notna, <- values_at_present in Hna.
  by apply values_at_notna_inv in Hna.
Qed.

Lemma pivot_groups_keys mx :
  pivot_groups mx
  = (λ k, LongRow (Some k.1) (Some k.2) (nanmean (values_at mx k.1 k.2)))
      <$> filter (λ k, notna (nanmean (values_at mx k.1 k.2)))
            (group_keys (keyed mx)).
Proof.
  unfold pivot_groups, groupby_agg. cbv zeta. rewrite filter_fmap.
  simpl. rewrite (fmap_ext_all _ (λ k, LongRow (Some k.1) (Some k.2)
                                     (nanmean (values_at mx k.1 k.2))))
    by (by intros [i j]).
  f_equal. apply list_filter_iff. by intros [i j].
Qed.

(** X19: the rows of a long matrix that lack an identifier or hold a NaN
    value have no influence on the wide matrix: [long_mx_2_wide_mx] returns
    the same array when they are removed. *)
Theorem long_mx_2_wide_mx_present mx :
  long_mx_2_wide_mx (filter present mx) = long_mx_2_wide_mx mx.
Proof.
  assert (pivot_groups (filter present mx) = pivot_groups mx) as Hgroups;
    [|unfold long_mx_2_wide_mx; by rewrite Hgroups].
  rewrite !pivot_groups_keys.
  rewrite (fmap_ext_all _ (λ k, LongRow (Some k.1) (Some k.2)
                                  (nanmean (values_at mx k.1 k.2)))).
  2:{ intros [i j]. simpl.
      by rewrite values_at_present, nanmean_filter_notna. }
  f_equal.
  erewrite (list_filter_iff (λ k, notna (nanmean (values_at (filter _ _) _ _)))
              (λ k, notna (nanmean (values_at mx k.1 k.2)))).
  2:{ intros [i j]. simpl.
      by rewrite values_at_present, nanmean_filter_notna. }
  apply (StronglySorted_unique pair_le).
  - apply StronglySorted_filter, StronglySorted_merge_sort; apply _.
  - apply StronglySorted_filter, StronglySorted_merge_sort; apply _.
  - apply NoDup_Permutation.
    + apply NoDup_filter, NoDup_group_keys.
    + apply NoDup_filter, NoDup_group_keys.
    + intros [i j]. rewrite !list_elem_of_filter, !elem_of_group_keys,
        !elem_of_keyed_fst. simpl. split.
      * intros [Hna (r & [_ Hr]%list_elem_of_filter & Hon)].
        split; [done|]. by exists r.
      * intros [Hna _]. split; [done|]. by apply notna_nanmean_present.
Qed.

(** ** [zonal_from_to_stations_demand]: the rows of the lookup *)

Lemma elem_of_merge_irsj D uc props d :
  d ∈ D →
  (∀ p, p ∈ props → irsj_matches uc d p →
     ZonalRow (row_id d) (col_id d) (val d) uc (irsj_from_stn_zone_id p)
       (irsj_to_stn_zone_id p) (proportion p) ∈ merge_irsj D uc props)
  ∧ (filter (irsj_matches uc d) props = [] →
     ZonalRow (row_id d) (col_id d) (val d) uc None None NaN
     ∈ merge_irsj D uc props).
Proof.
  intros Hd. unfold merge_irsj. split.
  - intros p Hp Hm. apply list_elem_of_bind. exists d. split; [|done].
    assert (p ∈ filter (irsj_matches uc d) props) as Hin
      by (by apply list_elem_of_filter).
    destruct (filter (irsj_matches uc d) props) as [|p' found];
      [by apply elem_of_nil in Hin|].
    by apply (list_elem_of_fmap_2
                (λ p, ZonalRow (row_id d) (col_id d) (val d) uc
                        (irsj_from_stn_zone_id p) (irsj_to_stn_zone_id p)
                        (proportion p))).
  - intros Hnil. apply list_elem_of_bind. exists d. split; [|done].
    rewrite Hnil. by left.
Qed.

(** X20: the returned lookup records every input movement: for every row
    of the input demand and every split probability that matches it, the
    lookup holds a row with the zones of the movement (swapped for to-home
    demand), the two stations of the split probability and its proportion
    as [stn_from_zone]; and for a row that no split probability matches it
    holds a row with the zones of the movement, station 0 at both ends and
    both shares 0.  Missing identifiers and proportions appear as 0. *)
Theorem zonal_lookup_rows demand_mx irsj_props S uc to_home d :
  d ∈ demand_mx →
  let lookup :=
    (zonal_from_to_stations_demand demand_mx irsj_props S uc to_home).2 in
  let d' := demand_row to_home d in
  (∀ p, p ∈ matching uc to_home irsj_props d →
     ∃ stn_to_zone,
       LookupRow (row_id d') (fillna0_id (irsj_from_stn_zone_id p))
         (fillna0_id (irsj_to_stn_zone_id p)) (col_id d')
         (fillna0 (proportion p)) stn_to_zone ∈ lookup)
  ∧ (matching uc to_home irsj_props d = [] →
     LookupRow (row_id d') (Some 0%Z) (Some 0%Z) (col_id d') (Fin 0) (Fin 0)
     ∈ lookup).
Proof.
  intros Hd lookup d'. subst lookup.
  rewrite zonal_lookup_unfold. unfold zonal_totals.
  rewrite merge_totals_groupby.
  unfold zonal_merged. rewrite transpose_matrix_oriented.
  set (D := oriented to_home <$> expand_matrix demand_mx default_zones).
  assert (d' ∈ D) as Hd'.
  { unfold D, d', demand_row. apply list_elem_of_fmap_2.
    apply elem_of_expand_matrix. left. by exists d. }
  clearbody D.
  set (mx := scale_demand <$> merge_irsj D uc irsj_props).
  assert (∀ r, r ∈ merge_irsj D uc irsj_props →
            lookup_of (scale_demand r,
                       pair_total (stn_long <$> mx) (stn_long (scale_demand r)))
            ∈ lookup_of
                <$> ((λ r, (r, pair_total (stn_long <$> mx) (stn_long r)))
                       <$> mx)) as Hin.
  { intros r Hr. rewrite <- list_fmap_compose.
    apply (list_elem_of_fmap_2
             (lookup_of ∘ (λ r, (r, pair_total (stn_long <$> mx)
                                      (stn_long r))))).
    by apply list_elem_of_fmap_2. }
  assert (fillna0_id (row_id d') = row_id d'
          ∧ fillna0_id (col_id d') = col_id d') as [Hi Hj].
  { unfold d', demand_row. by destruct to_home, d as [[i|] [j|] v]. }
  destruct (elem_of_merge_irsj D uc irsj_props d' Hd') as [Hmatch Hnone].
  split.
  - intros p [Hm Hp]%list_elem_of_filter.
    eexists. pose proof (Hin _ (Hmatch p Hp Hm)) as H.
    simpl in H. rewrite Hi, Hj in H. exact H.
  - intros Hnil. pose proof (Hin _ (Hnone Hnil)) as H.
    simpl in H. rewrite Hi, Hj, fmul_NaN_r in H. exact H.
Qed.

Lemma zonal_lookup_rows_witness :
  LongRow (Some 1%Z) (Some 1%Z) (num 10) ∈ half_demand
  ∧ ∃ stn_to_zone,
      LookupRow (Some 1%Z) (Some 1%Z) (Some 1%Z) (Some 1%Z) (frac 1 2)
        stn_to_zone
      ∈ (zonal_from_to_stations_demand half_demand half_props 1 1 false).2.
Proof.
  assert (LongRow (Some 1%Z) (Some 1%Z) (num 10) ∈ half_demand) as H
    by (by left).
  split; [exact H|].
  apply (proj1 (zonal_lookup_rows half_demand half_props 1 1 false _ H)
           (IrsjRow (Some 1%Z) (Some 1%Z) (Some 1%Z) (Some 1%Z) (Some 1%Z)
              (frac 1 2))).
  apply list_elem_of_filter. split; [by_compute | by left].
Defined.
